(** * The notify-me storefront widget (assets/notify-me.js)

    A shallow embedding of [NotifyMeComponent]: the availability watcher
    ([handleVariantUpdate], [setupVariantUpdateListener],
    [disconnectedCallback]), variant resolution ([getVariantId]), the modal
    dialog ([showEmailModal] with its [closeModal], [handleKeydown] and submit
    closures) and the network call ([submitNotification]).

    JavaScript strings are modelled by [string], one character per code
    unit, restricted to the code units below 256.  The lines that
    [handleVariantUpdate] logs are kept; the diagnostic output of the other
    methods ([console.log], [console.warn], [console.error]) has no effect on
    the page and is left out. *)

From stdpp Require Import base list strings pretty.

Open Scope string_scope.
Open Scope list_scope.
Open Scope nat_scope.
Set Warnings "-register-all".

(** ** JavaScript values, strings and exceptions *)

Module Js.

(** The values an event payload or a JSON body can hold.  [JNum n] is the
    Number that the integer literal [n] denotes.  [JArr] is an array without
    holes and [JObj] a plain object, each with the prototype it is created
    with; the own properties of an object are listed with their values, and
    a name that is listed twice has the value listed first.  Numbers with a
    fractional part and function values are not represented, so no property
    of a value is callable. *)
Inductive jsval : Type :=
  | JUndefined
  | JNull
  | JBool (b : bool)
  | JNum (n : Z)
  | JStr (s : string)
  | JObj (fields : list (string * jsval))
  | JArr (items : list jsval).

(** An [Error] object: its [name] and its [message]. *)
Record js_error : Type := mkError { err_name : string; err_message : string }.

(** [new Error(msg)] *)
Definition new_Error (msg : string) : js_error :=
  {| err_name := "Error"; err_message := msg |}.

(** A statement or expression either completes or throws. *)
Inductive completion (A : Type) : Type :=
  | Normal (a : A)
  | Throw (e : js_error).
Arguments Normal {A} a.
Arguments Throw {A} e.

#[global] Instance completion_ret : MRet completion := fun A a => Normal a.

#[global] Instance completion_bind : MBind completion := fun A B k c =>
  match c with
  | Normal a => k a
  | Throw e => Throw e
  end.

(** ToBoolean *)
Definition truthy (v : jsval) : bool :=
  match v with
  | JUndefined | JNull => false
  | JBool b => b
  | JNum n => negb (n =? 0)%Z
  | JStr s => negb (String.eqb s "")
  | JObj _ | JArr _ => true
  end.

(** Own-property lookup on an object literal. *)
Fixpoint lookup_field (p : string) (fields : list (string * jsval)) : option jsval :=
  match fields with
  | [] => None
  | (k, v) :: rest => if String.eqb k p then Some v else lookup_field p rest
  end.

(** The value of [v.p] when [v] is neither [null] nor [undefined]: the
    properties read by this program ([resource], [available], [id],
    [message], [error]) exist on plain objects only; arrays, strings,
    numbers and booleans have none of them. *)
Definition get_prop (v : jsval) (p : string) : jsval :=
  match v with
  | JObj fields => default JUndefined (lookup_field p fields)
  | _ => JUndefined
  end.

(** [v.p]: a TypeError on [null] and [undefined]. *)
Definition member (v : jsval) (p : string) : completion jsval :=
  match v with
  | JUndefined | JNull =>
      Throw {| err_name := "TypeError";
               err_message := "Cannot read properties of " +:+
                 (if v is JNull then "null" else "undefined") |}
  | _ => Normal (get_prop v p)
  end.

(** [v?.p] *)
Definition opt_member (v : jsval) (p : string) : jsval :=
  match v with
  | JUndefined | JNull => JUndefined
  | _ => get_prop v p
  end.

(** [v === b] for a boolean literal [b]. *)
Definition strict_eq_bool (v : jsval) (b : bool) : bool :=
  match v with
  | JBool b' => Bool.eqb b' b
  | _ => false
  end.

(** [a || b] on values. *)
Definition js_or (a b : jsval) : jsval := if truthy a then a else b.

(** The Number value of the integer literal [n], for [0 ≤ n]: [n] itself
    when it fits the 53 bits of a double's significand, else the nearest
    number that does, ties going to the even significand; [None] stands for
    [Infinity]. *)
Definition Number_of (n : Z) : option Z :=
  let e := (Z.log2 n + 1 - 53)%Z in
  if (e <=? 0)%Z then Some n
  else
    let q := Z.shiftr n e in
    let r := Z.land n (Z.ones e) in
    let half := Z.shiftl 1 (e - 1) in
    let q := if (half <? r)%Z || (r =? half)%Z && Z.odd q then (q + 1)%Z else q in
    let x := Z.shiftl q e in
    if (1024 <=? Z.log2 x)%Z then None else Some x.

(** Number::toString writes a Number with as few significant digits as
    still denote it.  Of the decimals with [k] significant digits next to
    the Number [x], below and above, this is the one whose Number value is
    [x]; when both are, the one closer to [x], and when both are as close,
    the one whose last digit is even (the choice the language specification
    recommends and the engines make). *)
Definition decimal_of_length (x : Z) (k : nat) : option Z :=
  let p := (10 ^ Z.of_nat (String.length (pretty x) - k))%Z in
  let lo := (x / p * p)%Z in
  let hi := (lo + p)%Z in
  match bool_decide (Number_of lo = Some x), bool_decide (Number_of hi = Some x) with
  | true, true =>
      if (x - lo <? hi - x)%Z then Some lo
      else if (hi - x <? x - lo)%Z then Some hi
      else if Z.even (lo / p) then Some lo else Some hi
  | true, false => Some lo
  | false, true => Some hi
  | false, false => None
  end.

(** The decimal with the fewest significant digits whose Number value is
    [x]: seventeen digits tell any two doubles apart. *)
Definition shortest_decimal (x : Z) : Z :=
  default x (head (omap (decimal_of_length x) (seq 1 17))).

Fixpoint strip_zeros (s : string) : string :=
  match s with
  | "" => ""
  | String c rest =>
      match strip_zeros rest with
      | "" => if String.eqb (String c "") "0" then "" else String c ""
      | rest' => String c rest'
      end
  end.

(** Number::toString for a positive integral Number, given by its shortest
    decimal [v]: the digits of [v] when there are at most 21 of them, else
    the significant digits with a point after the first one and the
    exponent. *)
Definition decimal_text (v : Z) : string :=
  let digits := pretty v in
  if String.length digits <=? 21 then digits
  else
    let exponent := "e+" +:+ pretty (String.length digits - 1) in
    match strip_zeros digits with
    | "" => digits
    | String d "" => String d exponent
    | String d more => String d ("." +:+ more +:+ exponent)
    end.

(** ToString of the Number that the integer literal [n] denotes. *)
Definition Number_toString (n : Z) : string :=
  let sign := if (n <? 0)%Z then "-" else "" in
  match Number_of (Z.abs n) with
  | None => sign +:+ "Infinity"
  | Some 0%Z => "0"
  | Some x => sign +:+ decimal_text (shortest_decimal x)
  end.

(** The TypeError of ToPrimitive on an object whose [toString] and [valueOf]
    yield no primitive (the text is the one V8 gives). *)
Definition cannot_convert : js_error :=
  {| err_name := "TypeError";
     err_message := "Cannot convert object to primitive value" |}.

(** ToString.  A plain object answers [toString] with
    [Object.prototype.toString] unless it has an own property of that name,
    which is not callable: then [valueOf] is tried, and neither an own
    [valueOf] (not callable) nor the inherited one (it returns the object)
    yields a primitive, so a TypeError is thrown.  An array answers with
    [Array.prototype.join]: its elements converted in turn, [null] and
    [undefined] to the empty string, with commas between. *)
Fixpoint to_string (v : jsval) : completion string :=
  match v with
  | JUndefined => Normal "undefined"
  | JNull => Normal "null"
  | JBool true => Normal "true"
  | JBool false => Normal "false"
  | JNum n => Normal (Number_toString n)
  | JStr s => Normal s
  | JObj fields =>
      match lookup_field "toString" fields with
      | Some _ => Throw cannot_convert
      | None => Normal "[object Object]"
      end
  | JArr items =>
      (fix join (items : list jsval) : completion string :=
         match items with
         | [] => Normal ""
         | item :: rest =>
             match (match item with
                    | JUndefined | JNull => Normal ""
                    | _ => to_string item
                    end) with
             | Normal first =>
                 match rest with
                 | [] => Normal first
                 | _ =>
                     match join rest with
                     | Normal others => Normal (first +:+ "," +:+ others)
                     | Throw e => Throw e
                     end
                 end
             | Throw e => Throw e
             end
         end) items
  end.

(** What [throw new Error(v)] throws.  The constructor converts its argument
    to a string and keeps it as the message, unless the argument is
    [undefined]: then the error has no message of its own and [message]
    reads the empty string of the prototype.  What the conversion throws is
    thrown in place of the new error. *)
Definition raised (v : jsval) : js_error :=
  match v with
  | JUndefined => new_Error ""
  | _ =>
      match to_string v with
      | Normal text => new_Error text
      | Throw e => e
      end
  end.

(** [hay.includes(needle)] *)
Fixpoint includes (hay needle : string) : bool :=
  if String.prefix needle hay then true
  else match hay with
       | "" => false
       | String _ rest => includes rest needle
       end.

(** White space and line terminators among the code units below 256:
    TAB, LF, VT, FF, CR, SPACE and NBSP. *)
Definition is_white_space (c : Ascii.ascii) : bool :=
  let n := Ascii.nat_of_ascii c in
  (9 <=? n)%nat && (n <=? 13)%nat || (n =? 32)%nat || (n =? 160)%nat.

Fixpoint trimStart (s : string) : string :=
  match s with
  | "" => ""
  | String c rest => if is_white_space c then trimStart rest else s
  end.

Fixpoint trimEnd (s : string) : string :=
  match s with
  | "" => ""
  | String c rest =>
      match trimEnd rest with
      | "" => if is_white_space c then "" else String c ""
      | rest' => String c rest'
      end
  end.

(** [s.trim()] *)
Definition trim (s : string) : string := trimEnd (trimStart s).

End Js.

(** ** The page: elements, selectors and tree queries *)

Module Dom.

(** An element with the parts the widget reads: tag name, attributes, class
    list, the current [value] of a form control, whether the element is in
    the [:checked] state (a checked radio button or check box; the program
    reads checkedness through that selector only, never through the
    [checked] property), and the child elements in document order. *)
Inductive element : Type :=
  Element (tagName : string) (attributes : list (string * string))
          (classList : list string) (value : string) (checked : bool)
          (children : list element).

Definition tagName (e : element) : string :=
  let 'Element t _ _ _ _ _ := e in t.
Definition attributes (e : element) : list (string * string) :=
  let 'Element _ a _ _ _ _ := e in a.
Definition classList (e : element) : list string :=
  let 'Element _ _ c _ _ _ := e in c.
Definition value (e : element) : string :=
  let 'Element _ _ _ v _ _ := e in v.
Definition checked (e : element) : bool :=
  let 'Element _ _ _ _ c _ := e in c.
Definition children (e : element) : list element :=
  let 'Element _ _ _ _ _ cs := e in cs.

(** [e.getAttribute(name)] *)
Fixpoint getAttribute (name : string) (attrs : list (string * string)) : option string :=
  match attrs with
  | [] => None
  | (k, v) :: rest => if String.eqb k name then Some v else getAttribute name rest
  end.

(** The selector language the widget uses: a comma-separated list of
    compound selectors, each a conjunction of simple ones. *)
Inductive simple_selector : Type :=
  | SelTag (t : string)                 (* input *)
  | SelClass (c : string)               (* .shopify-section *)
  | SelAttr (name : string)             (* [data-variant-id] *)
  | SelAttrEq (name v : string)         (* [name="id"] *)
  | SelChecked.                         (* :checked *)

Definition selector : Type := list (list simple_selector).

Definition matches_simple (e : element) (s : simple_selector) : bool :=
  match s with
  | SelTag t => String.eqb (tagName e) t
  | SelClass c => existsb (String.eqb c) (classList e)
  | SelAttr name => bool_decide (is_Some (getAttribute name (attributes e)))
  | SelAttrEq name v =>
      match getAttribute name (attributes e) with
      | Some v' => String.eqb v' v
      | None => false
      end
  | SelChecked => checked e             (* the element is in the :checked state *)
  end.

(** [e.matches(sel)] *)
Definition matches (sel : selector) (e : element) : bool :=
  existsb (forallb (matches_simple e)) sel.

(** All descendants of [e], in document order. *)
Fixpoint descendants (e : element) : list element :=
  flat_map (fun c => c :: descendants c) (children e).

(** [e.querySelectorAll(sel)] and [e.querySelector(sel)] *)
Definition querySelectorAll (e : element) (sel : selector) : list element :=
  filter (fun d => matches sel d = true) (descendants e).

Definition querySelector (e : element) (sel : selector) : option element :=
  head (querySelectorAll e sel).

(** An element is identified by its position: the child indices leading to it
    from the document element. *)
Definition path : Type := list nat.

(** The chain of [self], its parent, its grandparent, ... up to the document
    element, each with its position; [None] when the path leads nowhere. *)
Fixpoint chain_from (e : element) (here rest : path)
    (acc : list (path * element)) : option (list (path * element)) :=
  match rest with
  | [] => Some ((here, e) :: acc)
  | i :: rest' =>
      match children e !! i with
      | Some c => chain_from c (here ++ [i])%list rest' ((here, e) :: acc)
      | None => None
      end
  end.

Definition inclusive_ancestors (root : element) (p : path) : option (list (path * element)) :=
  chain_from root [] p [].

(** After the subtree rooted at depth [d] of that chain has been removed from
    the document, the parent links of [self] end at the root of that subtree:
    only the ancestors at depth [d] or below remain reachable. *)
Definition detach (d : nat) (chain : list (path * element)) : list (path * element) :=
  take (length chain - d) chain.

(** [self.closest(sel)], walking the parent links of [self]. *)
Definition closest (chain : list (path * element)) (sel : selector) : option (path * element) :=
  head (filter (fun a => matches sel a.2 = true) chain).

(** The selectors of the program. *)
Definition sel_section : selector := [[SelClass "shopify-section"]].
Definition sel_product_form : selector := [[SelTag "product-form-component"]].
Definition sel_variant_input : selector :=
  [[SelTag "input"; SelAttrEq "name" "id"]; [SelTag "input"; SelAttrEq "ref" "variantId"]].
Definition sel_variant_picker : selector := [[SelTag "variant-picker"]].
Definition sel_selected_variant : selector :=
  [[SelTag "input"; SelAttr "data-variant-id"; SelChecked]].

(** The document: its element tree and the parsed query string of
    [window.location.search], as [URLSearchParams] holds it. *)
Record document : Type := {
  documentElement : element;
  search : list (string * string) }.

(** [document.querySelector(sel)]: the document element is itself a
    descendant of the document. *)
Definition document_querySelector (doc : document) (sel : selector) : option element :=
  head (filter (fun d => matches sel d = true)
          (documentElement doc :: descendants (documentElement doc))).

(** [urlParams.get(name)]: the first value stored under [name]. *)
Fixpoint URLSearchParams_get (name : string) (params : list (string * string)) : option string :=
  match params with
  | [] => None
  | (k, v) :: rest => if String.eqb k name then Some v else URLSearchParams_get name rest
  end.

End Dom.

(** ** The availability watcher *)

Module Watcher.
Import Js Dom.

(** [ThemeEvents], imported from the theme: the names of the two events. *)
Record theme_events : Type := {
  variantUpdate : string;
  variantSelected : string }.

(** What a listener can be registered on: the document, an element of the
    page (by position), or the component's own notify button. *)
Inductive event_target : Type :=
  | Document
  | Node (p : path)
  | NotifyButton.

#[global] Instance event_target_eq_dec : EqDecision event_target.
Proof. solve_decision. Defined.

(** A registered listener; function objects are identified by the order in
    which they were created. *)
Record listener : Type := Listener {
  l_target : event_target;
  l_type : string;
  l_callback : nat }.

#[global] Instance listener_eq_dec : EqDecision listener.
Proof. solve_decision. Defined.

(** [target.addEventListener(type, callback)]: registering the same callback
    for the same type on the same target again changes nothing. *)
Definition addEventListener (l : listener) (ls : list listener) : list listener :=
  if decide (l ∈ ls) then ls else (ls ++ [l])%list.

(** [target.removeEventListener(type, callback)] *)
Definition removeEventListener (l : listener) (ls : list listener) : list listener :=
  filter (fun l' => l' ≠ l) ls.

(** The component: its own [style.display], the [style.display] of the
    [#notify-me-button] below it ([None] when [querySelector] finds no such
    child), the bound handler field, and the lines it logged. *)
Record component : Type := {
  style_display : string;
  notify_button : option string;
  boundVariantUpdateHandler : option nat;
  console : list (string * option jsval) }.

(** The registry of listeners of the page and the next function object. *)
Record registry : Type := {
  listeners : list listener;
  next_function : nat }.

Record custom_event : Type := {
  ev_type : string;
  detail : jsval }.

Definition set_display (this : component) (own button : string)
    (line : string * option jsval) : component :=
  {| style_display := own;
     notify_button := Some button;
     boundVariantUpdateHandler := boundVariantUpdateHandler this;
     console := (console this ++ [line])%list |}.

Definition handleVariantUpdate (this : component) (event : custom_event)
    : completion component :=
  let variant := opt_member (detail event) "resource" in
  match notify_button this with
  | None => mret this
  | Some _ =>
      unavailable ←
        (if truthy variant
         then a ← member variant "available"; mret (strict_eq_bool a false)
         else mret false);
      if (unavailable : bool) then
        id ← member variant "id";
        mret (set_display this "block" "flex"
                ("Showing notify me button - variant not available:", Some id))
      else
        available ←
          (if truthy variant
           then a ← member variant "available"; mret (strict_eq_bool a true)
           else mret false);
        if (available : bool) then
          id ← member variant "id";
          mret (set_display this "none" "none"
                  ("Hiding notify me button - variant available:", Some id))
        else
          mret (set_display this "none" "none"
                  ("Hiding notify me button - no variant selected", None))
  end.

(** [this.closest(".shopify-section") || document] *)
Definition scope (chain : list (path * element)) : event_target :=
  match closest chain sel_section with
  | Some (p, _) => Node p
  | None => Document
  end.

Definition setupNotifyButton (this : component) (r : registry) : registry :=
  match notify_button this with
  | Some _ =>
      {| listeners :=
           addEventListener (Listener NotifyButton "click" (next_function r)) (listeners r);
         next_function := S (next_function r) |}
  | None => r
  end.

Definition setupVariantUpdateListener (ev : theme_events)
    (chain : list (path * element)) (this : component) (r : registry)
    : component * registry :=
  let section := scope chain in
  let handler := next_function r in
  ({| style_display := style_display this;
      notify_button := notify_button this;
      boundVariantUpdateHandler := Some handler;
      console := console this |},
   {| listeners :=
        addEventListener (Listener section (variantSelected ev) handler)
          (addEventListener (Listener section (variantUpdate ev) handler) (listeners r));
      next_function := S handler |}).

(** [chain] is the chain of parent links of the component when the callback
    runs.  The callbacks of the base class are declared outside this file. *)
Definition connectedCallback (ev : theme_events) (chain : list (path * element))
    (this : component) (r : registry) : component * registry :=
  setupVariantUpdateListener ev chain this (setupNotifyButton this r).

Definition disconnectedCallback (ev : theme_events) (chain : list (path * element))
    (this : component) (r : registry) : registry :=
  match boundVariantUpdateHandler this with
  | Some handler =>
      let section := scope chain in
      {| listeners :=
           removeEventListener (Listener section (variantSelected ev) handler)
             (removeEventListener (Listener section (variantUpdate ev) handler) (listeners r));
         next_function := next_function r |}
  | None => r
  end.

(** The control is shown, or hidden, when both the component and its button
    are. *)
Definition shown (this : component) : Prop :=
  style_display this = "block" ∧ notify_button this = Some "flex".

Definition hidden (this : component) : Prop :=
  style_display this = "none" ∧ notify_button this = Some "none".

(** The payload carries a resource object whose [available] is the boolean
    [b]. *)
Definition resource_available (event : custom_event) (b : bool) : Prop :=
  ∃ payload fields,
    detail event = JObj payload ∧
    lookup_field "resource" payload = Some (JObj fields) ∧
    lookup_field "available" fields = Some (JBool b).

(** The payload has no resource: no detail at all, or a [resource] that is
    missing, [null] or [undefined]. *)
Definition resource_absent (event : custom_event) : Prop :=
  opt_member (detail event) "resource" = JUndefined ∨
  opt_member (detail event) "resource" = JNull.

End Watcher.

(** ** Variant resolution *)

Module Variant.
Import Js Dom.

(** [value && value !== ""] on a string *)
Definition non_empty (s : string) : bool :=
  negb (String.eqb s "") && negb (String.eqb s "").

(** The loop over [allVariantInputs]: the first value that is not empty. *)
Fixpoint first_value (inputs : list element) : option string :=
  match inputs with
  | [] => None
  | input :: rest =>
      let v := value input in
      if non_empty v then Some v else first_value rest
  end.

(** [chain] is the chain of parent links of the component. *)
Definition getVariantId (doc : document) (chain : list (path * element)) : option string :=
  let from_form :=
    match closest chain sel_product_form with
    | Some (_, productForm) =>
        match querySelector productForm sel_variant_input with
        | Some variantInput =>
            let v := value variantInput in
            if non_empty v then Some v else None
        | None => None
        end
    | None => None
    end in
  match from_form with
  | Some v => Some v
  | None =>
  let from_section :=
    match closest chain sel_section with
    | Some (_, section) => first_value (querySelectorAll section sel_variant_input)
    | None => None
    end in
  match from_section with
  | Some v => Some v
  | None =>
  let from_picker :=
    match document_querySelector doc sel_variant_picker with
    | Some variantPicker =>
        match querySelector variantPicker sel_selected_variant with
        | Some selectedVariant =>
            match getAttribute "data-variant-id" (attributes selectedVariant) with
            | Some variantId => if negb (String.eqb variantId "") then Some variantId else None
            | None => None
            end
        | None => None
        end
    | None => None
    end in
  match from_picker with
  | Some v => Some v
  | None =>
  match URLSearchParams_get "variant" (search doc) with
  | Some variantFromUrl =>
      if negb (String.eqb variantFromUrl "") then Some variantFromUrl else None
  | None => None
  end
  end end end.

(** The four sources as the specification lists them, each as the values it
    offers, in the order in which they are consulted. *)

(** 1. the input named [id] (or referenced as [variantId]) inside the nearest
    enclosing product-form ancestor *)
Definition source_product_form (chain : list (path * element)) : list string :=
  match closest chain sel_product_form with
  | Some (_, form) => option_list (value <$> querySelector form sel_variant_input)
  | None => []
  end.

(** 2. the same input pattern anywhere within the nearest enclosing section *)
Definition source_section (chain : list (path * element)) : list string :=
  match closest chain sel_section with
  | Some (_, section) => value <$> querySelectorAll section sel_variant_input
  | None => []
  end.

(** 3. the checked input carrying a variant-id data attribute inside the
    page-level variant picker *)
Definition source_picker (doc : document) : list string :=
  match document_querySelector doc sel_variant_picker with
  | Some picker =>
      match querySelector picker sel_selected_variant with
      | Some input => option_list (getAttribute "data-variant-id" (attributes input))
      | None => []
      end
  | None => []
  end.

(** 4. the [variant] query parameter of the page URL *)
Definition source_url (doc : document) : list string :=
  option_list (URLSearchParams_get "variant" (search doc)).

(** The first non-empty value among a list of offered values. *)
Definition first_non_empty (values : list string) : option string :=
  head (filter (fun v => v ≠ "") values).

End Variant.

(** ** The modal dialog and the submission *)

Module Modal.
Import Js Dom.

(** One instance of the modal markup, reduced to what the program reads and
    writes: the visibility class of [#notify-me-modal], the value of
    [#notify-email], the submit button, the message area, and the listeners
    registered on the close button, the cancel button, the backdrop and the
    form.  Every instance is built from the same [modalHTML], so the lookups
    of these parts inside an instance ([.notify-me-modal__close],
    [.notify-me-form__cancel], [.notify-me-modal__backdrop],
    [.notify-me-form__message], [#notify-email], [.notify-me-form__submit])
    always find them, and the guards on their absence never fire.  The page
    is taken to hold no other element with the ids [notify-me-modal] and
    [notify-me-form].  Closures are identified by the call of
    [showEmailModal] that created them. *)
Record modal_node : Type := {
  visible : bool;
  email_value : string;
  submit_disabled : bool;
  submit_text : string;
  message_text : string;
  message_class : string;
  message_display : string;
  close_click : list nat;
  cancel_click : list nat;
  backdrop_click : list nat;
  form_submit : list nat }.

(** The node that [insertAdjacentHTML] builds from [modalHTML]. *)
Definition template : modal_node := {|
  visible := false;
  email_value := "";
  submit_disabled := false;
  submit_text := "Notify Me";
  message_text := "";
  message_class := "notify-me-form__message";
  message_display := "none";
  close_click := [];
  cancel_click := [];
  backdrop_click := [];
  form_submit := [] |}.

(** What [setTimeout] can be asked to run. *)
Inductive timer : Type :=
  | RemoveModal (m : nat)      (* () => modal.remove() *)
  | CloseModal (k : nat)       (* closeModal of call k *)
  | FocusEmail (m : nat).      (* focus #notify-email of the modal *)

#[global] Instance timer_eq_dec : EqDecision timer.
Proof. solve_decision. Defined.

(** A call of [fetch]. *)
Record request : Type := {
  req_url : string;
  req_method : string;
  req_content_type : string;
  req_variantId : string;
  req_email : string }.

(** The browser state the modal code acts on.
    - [nodes]: every modal node created so far, by order of creation; a node
      stays reachable from the closures that captured it after it has left
      the document;
    - [body]: the modal nodes attached to [document.body], in document order;
    - [envs]: for the k-th call of [showEmailModal], the node its closures
      hold in [modal] (the form and the message area are those of that node);
    - [keydown]: the [handleKeydown] closures registered on the document;
    - [frames]: nodes for which an animation-frame callback is pending;
    - [timers]: pending timeouts with their due time, earliest first;
    - [requests]: the calls of [fetch] made so far. *)
Record world : Type := {
  nodes : list modal_node;
  body : list nat;
  envs : list nat;
  keydown : list nat;
  frames : list nat;
  timers : list (nat * timer);
  now : nat;
  focused : option nat;
  requests : list request }.

Definition initial : world := {|
  nodes := []; body := []; envs := []; keydown := []; frames := [];
  timers := []; now := 0; focused := None; requests := [] |}.

Definition with_nodes (f : list modal_node → list modal_node) (w : world) : world :=
  {| nodes := f (nodes w); body := body w; envs := envs w; keydown := keydown w;
     frames := frames w; timers := timers w; now := now w; focused := focused w;
     requests := requests w |}.

Definition with_body (f : list nat → list nat) (w : world) : world :=
  {| nodes := nodes w; body := f (body w); envs := envs w; keydown := keydown w;
     frames := frames w; timers := timers w; now := now w; focused := focused w;
     requests := requests w |}.

Definition with_envs (f : list nat → list nat) (w : world) : world :=
  {| nodes := nodes w; body := body w; envs := f (envs w); keydown := keydown w;
     frames := frames w; timers := timers w; now := now w; focused := focused w;
     requests := requests w |}.

Definition with_keydown (f : list nat → list nat) (w : world) : world :=
  {| nodes := nodes w; body := body w; envs := envs w; keydown := f (keydown w);
     frames := frames w; timers := timers w; now := now w; focused := focused w;
     requests := requests w |}.

Definition with_frames (f : list nat → list nat) (w : world) : world :=
  {| nodes := nodes w; body := body w; envs := envs w; keydown := keydown w;
     frames := f (frames w); timers := timers w; now := now w; focused := focused w;
     requests := requests w |}.

Definition with_timers (f : list (nat * timer) → list (nat * timer)) (w : world) : world :=
  {| nodes := nodes w; body := body w; envs := envs w; keydown := keydown w;
     frames := frames w; timers := f (timers w); now := now w; focused := focused w;
     requests := requests w |}.

Definition with_now (t : nat) (w : world) : world :=
  {| nodes := nodes w; body := body w; envs := envs w; keydown := keydown w;
     frames := frames w; timers := timers w; now := t; focused := focused w;
     requests := requests w |}.

Definition with_focused (f : option nat) (w : world) : world :=
  {| nodes := nodes w; body := body w; envs := envs w; keydown := keydown w;
     frames := frames w; timers := timers w; now := now w; focused := f;
     requests := requests w |}.

Definition with_requests (f : list request → list request) (w : world) : world :=
  {| nodes := nodes w; body := body w; envs := envs w; keydown := keydown w;
     frames := frames w; timers := timers w; now := now w; focused := focused w;
     requests := f (requests w) |}.

(** Writes to one node. *)
Definition update_node (m : nat) (f : modal_node → modal_node) (w : world) : world :=
  with_nodes (alter f m) w.

Definition set_visible (b : bool) (n : modal_node) : modal_node :=
  {| visible := b; email_value := email_value n;
     submit_disabled := submit_disabled n; submit_text := submit_text n;
     message_text := message_text n; message_class := message_class n;
     message_display := message_display n; close_click := close_click n;
     cancel_click := cancel_click n; backdrop_click := backdrop_click n;
     form_submit := form_submit n |}.

Definition set_email (s : string) (n : modal_node) : modal_node :=
  {| visible := visible n; email_value := s;
     submit_disabled := submit_disabled n; submit_text := submit_text n;
     message_text := message_text n; message_class := message_class n;
     message_display := message_display n; close_click := close_click n;
     cancel_click := cancel_click n; backdrop_click := backdrop_click n;
     form_submit := form_submit n |}.

Definition set_submit (disabled : bool) (text : string) (n : modal_node) : modal_node :=
  {| visible := visible n; email_value := email_value n;
     submit_disabled := disabled; submit_text := text;
     message_text := message_text n; message_class := message_class n;
     message_display := message_display n; close_click := close_click n;
     cancel_click := cancel_click n; backdrop_click := backdrop_click n;
     form_submit := form_submit n |}.

Definition set_message (text class display : string) (n : modal_node) : modal_node :=
  {| visible := visible n; email_value := email_value n;
     submit_disabled := submit_disabled n; submit_text := submit_text n;
     message_text := text; message_class := class;
     message_display := display; close_click := close_click n;
     cancel_click := cancel_click n; backdrop_click := backdrop_click n;
     form_submit := form_submit n |}.

Definition add_listeners (k : nat) (n : modal_node) : modal_node :=
  {| visible := visible n; email_value := email_value n;
     submit_disabled := submit_disabled n; submit_text := submit_text n;
     message_text := message_text n; message_class := message_class n;
     message_display := message_display n;
     close_click := (close_click n ++ [k])%list;
     cancel_click := (cancel_click n ++ [k])%list;
     backdrop_click := (backdrop_click n ++ [k])%list;
     form_submit := (form_submit n ++ [k])%list |}.

(** The timer queue is kept in firing order: by due time, and among equal
    due times by order of registration. *)
Fixpoint enqueue (due : nat) (t : timer) (q : list (nat * timer)) : list (nat * timer) :=
  match q with
  | [] => [(due, t)]
  | (d, t') :: q' =>
      if decide (d ≤ due)%nat then (d, t') :: enqueue due t q' else (due, t) :: q
  end.

(** [setTimeout(t, delay)] *)
Definition setTimeout (delay : nat) (t : timer) (w : world) : world :=
  with_timers (enqueue (now w + delay) t) w.

(** [document.getElementById("notify-me-modal")]: the first modal node of the
    document; [document.getElementById("notify-me-form")] is the form inside
    that same node. *)
Definition getElementById_modal (w : world) : option nat := head (body w).

(** [closeModal], as created by call [k] of [showEmailModal]. *)
Definition closeModal (k : nat) (w : world) : world :=
  match envs w !! k with
  | Some modal =>
      setTimeout 300 (RemoveModal modal)
        (update_node modal (set_visible false)
           (with_keydown (filter (fun k' => k' ≠ k)) w))
  | None => w
  end.

(** [handleKeydown], as created by call [k]. *)
Definition handleKeydown (k : nat) (key : string) (w : world) : world :=
  if String.eqb key "Escape" then closeModal k w else w.

Definition showEmailModal (w : world) : world :=
  let inserted :=
    with_body (fun b => b ++ [length (nodes w)])%list
      (with_nodes (fun ns => ns ++ [template])%list w) in
  match getElementById_modal inserted with
  | None => inserted
  | Some modal =>
      let k := length (envs inserted) in
      setTimeout 100 (FocusEmail modal)
        (update_node modal (add_listeners k)
           (with_keydown (fun ls => ls ++ [k])%list
              (with_frames (fun fs => fs ++ [modal])%list
                 (with_envs (fun es => es ++ [modal])%list inserted))))
  end.

(** What a timeout does when it fires. *)
Definition fire (t : timer) (w : world) : world :=
  match t with
  | RemoveModal m => with_body (filter (fun m' => m' ≠ m)) w
  | CloseModal k => closeModal k w
  | FocusEmail m => if decide (m ∈ body w) then with_focused (Some m) w else w
  end.

(** The next timeout fires, no earlier than its due time. *)
Definition run_next (w : world) : world :=
  match timers w with
  | [] => w
  | (due, t) :: q => fire t (with_now (now w `max` due) (with_timers (fun _ => q) w))
  end.

(** Firing a [closeModal] timeout registers one more timeout; the others
    register none. *)
Definition weight (e : nat * timer) : nat :=
  match e.2 with
  | CloseModal _ => 2
  | _ => 1
  end.

Definition work (q : list (nat * timer)) : nat := sum_list_with weight q.

Definition pending_work (w : world) : nat := work (timers w).

(** The next [n] timeouts fire. *)
Fixpoint drain (n : nat) (w : world) : world :=
  match n with
  | 0 => w
  | S n' => drain n' (run_next w)
  end.

(** Time passes until no timeout is pending. *)
Definition settle (w : world) : world := drain (pending_work w) w.

(** The pending animation-frame callbacks run: each adds the visibility
    class to its node. *)
Definition animation_frame (w : world) : world :=
  with_frames (fun _ => [])
    (foldl (fun w m => update_node m (set_visible true) w) w (frames w)).

(** The node [getElementById] returns once a new modal has been inserted:
    the first modal of the document, which is the new one only when no other
    is attached. *)
Definition first_modal (w : world) : nat := default (length (nodes w)) (head (body w)).

(** The timeouts that firing [t] in [w] registers, added to the queue [q]. *)
Definition registered (t : timer) (w : world) (q : list (nat * timer)) : list (nat * timer) :=
  match t with
  | CloseModal k =>
      match envs w !! k with
      | Some m => enqueue (now w + 300) (RemoveModal m) q
      | None => q
      end
  | _ => q
  end.

(** What holds of every state the page can reach: closures hold nodes that
    exist, the keydown listeners registered are closures that exist, and the
    modals attached to the document are nodes that exist. *)
Definition well_formed (w : world) : Prop :=
  Forall (λ m, m < length (nodes w)) (envs w) ∧
  Forall (λ k, k < length (envs w)) (keydown w) ∧
  Forall (λ m, m < length (nodes w)) (body w).

(** A keydown event reaches the document: the listeners registered when the
    dispatch starts run in order, unless removed in the meantime. *)
Definition dispatch_keydown (key : string) (w : world) : world :=
  foldl (fun w k => if decide (k ∈ keydown w) then handleKeydown k key w else w)
        w (keydown w).

(** A click on the close button, the cancel button or the backdrop of node
    [m]: every listener registered there is a [closeModal]. *)
Definition click (part : modal_node → list nat) (m : nat) (w : world) : world :=
  match nodes w !! m with
  | Some n => foldl (fun w k => closeModal k w) w (part n)
  | None => w
  end.

(** The user types into the email field of node [m]. *)
Definition type_email (m : nat) (s : string) (w : world) : world :=
  update_node m (set_email s) w.

End Modal.

(** ** The submit handler and the network call *)

Module Submission.
Import Js Dom Modal.

(** What [response.json()] settles to. *)
Inductive json_result : Type :=
  | JsonValue (v : jsval)
  | JsonSyntaxError (msg : string).

(** How the call of [fetch] ends: the promise is rejected (the request could
    not be made or answered), or a response arrives with its status and
    body. *)
Inductive fetch_outcome : Type :=
  | NetworkFailure (e : js_error)
  | Response (status : N) (body : json_result).

(** [response.ok] *)
Definition response_ok (status : N) : bool :=
  (200 <=? status)%N && (status <=? 299)%N.

(** Awaiting [response.json()]. *)
Definition json (body : json_result) : completion jsval :=
  match body with
  | JsonValue v => Normal v
  | JsonSyntaxError msg => Throw {| err_name := "SyntaxError"; err_message := msg |}
  end.

Definition endpoint : string :=
  "https://klaviyo-shopify-sync-418706328134.us-central1.run.app/subscribe-back-in-stock".

Definition connectivity_message : string :=
  "Network error. Please check your connection and try again.".

(** The request [submitNotification] sends. *)
Definition notification_request (variantId email : string) : request :=
  {| req_url := endpoint; req_method := "POST";
     req_content_type := "application/json";
     req_variantId := variantId; req_email := email |}.

(** How the promise of [submitNotification] settles, given how the call of
    [fetch] ends: [Normal] when fulfilled, [Throw] when rejected.  The [try]
    block either throws or returns; on the success path it returns the
    promise of [response.json()] without awaiting it, so that promise
    settles the result directly and the [catch] clause sees only what was
    thrown inside the block, which includes what the conversion of
    [errorMessage] to a string throws. *)
Definition submitNotification (o : fetch_outcome) : completion jsval :=
  let in_try : completion (completion jsval) :=
    match o with
    | NetworkFailure e => Throw e
    | Response status body =>
        if negb (response_ok status) then
          let errorMessage := JStr ("HTTP " +:+ pretty status) in
          let errorMessage :=
            match (errorData ← json body;
                   message ← member errorData "message";
                   error ← member errorData "error";
                   mret (js_or message (js_or error errorMessage))) with
            | Normal v => v
            | Throw _ => errorMessage
            end in
          Throw (raised errorMessage)
        else Normal (json body)
    end in
  match in_try with
  | Normal promise => promise
  | Throw error =>
      if String.eqb (err_name error) "TypeError" && includes (err_message error) "fetch"
      then Throw (new_Error connectivity_message)
      else Throw error
  end.

Definition showMessage (messageDiv : nat) (message type : string) (w : world) : world :=
  update_node messageDiv
    (set_message message
       ("notify-me-form__message notify-me-form__message--" +:+ type) "block") w.

Definition validation_message : string := "Please enter a valid email address.".
Definition variant_message : string := "Error: Could not determine product variant.".
Definition success_message : string :=
  "Thank you! We'll notify you when this product is back in stock.".
Definition fallback_message : string := "Sorry, there was an error. Please try again.".

(** What the suspended handler holds while the call is in flight. *)
Record continuation : Type := {
  c_closure : nat;
  c_modal : nat;
  c_originalText : string }.

(** The submit handler runs until it returns or reaches its [await]. *)
Inductive submit_result : Type :=
  | Returned (w : world)
  | Awaiting (w : world) (c : continuation).

(** [!variantId] *)
Definition no_variant (variantId : option string) : bool :=
  match variantId with
  | Some v => String.eqb v ""
  | None => true
  end.

(** The submit listener of call [k], up to the [await]; [doc] and [chain]
    are the page and the parent links of the component. *)
Definition submit (doc : document) (chain : list (path * element)) (k : nat)
    (w : world) : submit_result :=
  match envs w !! k with
  | None => Returned w
  | Some modal =>
      match nodes w !! modal with
      | None => Returned w
      | Some form =>
          let email := trim (email_value form) in
          if String.eqb email "" || negb (includes email "@") then
            Returned (showMessage modal validation_message "error" w)
          else
            let variantId := Variant.getVariantId doc chain in
            if no_variant variantId then
              Returned (showMessage modal variant_message "error" w)
            else
              let originalText := submit_text form in
              Awaiting
                (with_requests
                   (fun rs => rs ++ [notification_request (default "" variantId) email])%list
                   (update_node modal (set_submit true "Submitting...") w))
                {| c_closure := k; c_modal := modal; c_originalText := originalText |}
      end
  end.

(** The handler resumes once the call has ended: the rest of the [try]
    block or the [catch] clause, then the [finally] clause. *)
Definition resume (c : continuation) (o : fetch_outcome) (w : world) : world :=
  let after :=
    match submitNotification o with
    | Normal _ =>
        setTimeout 2500 (CloseModal (c_closure c))
          (update_node (c_modal c) (set_email "")
             (showMessage (c_modal c) success_message "success" w))
    | Throw error =>
        let errorMessage :=
          if negb (String.eqb (err_message error) "") then err_message error
          else fallback_message in
        showMessage (c_modal c) errorMessage "error" w
    end in
  update_node (c_modal c) (fun n => set_submit false (c_originalText c) n) after.

(** The network call fails at the transport level: [fetch] rejects with a
    [TypeError], whose message is chosen by the browser. *)
Definition transport_failure (msg : string) : fetch_outcome :=
  NetworkFailure {| err_name := "TypeError"; err_message := msg |}.

(** Two keydown listeners conflict when both are registered on the document
    and both close the same modal node. *)
Definition conflicting (w : world) (k1 k2 : nat) : Prop :=
  k1 ≠ k2 ∧ k1 ∈ keydown w ∧ k2 ∈ keydown w ∧
  ∃ m, envs w !! k1 = Some m ∧ envs w !! k2 = Some m.

(** [s] contains [sub]: it splits around an occurrence of it. *)
Definition contains (s sub : string) : Prop :=
  ∃ before after, s = before +:+ sub +:+ after.

(** What the message area of node [m] shows: its text and class, when it is
    displayed. *)
Definition shown_message (m : nat) (w : world) : option (string * string) :=
  match nodes w !! m with
  | Some n =>
      if String.eqb (message_display n) "block"
      then Some (message_text n, message_class n) else None
  | None => None
  end.

Definition error_class : string := "notify-me-form__message notify-me-form__message--error".
Definition success_class : string := "notify-me-form__message notify-me-form__message--success".

(** What a response without a success status reports: the [message] of the
    JSON body, else its [error], else the HTTP status. *)
Definition server_error_value (status : N) (body : json_result) : jsval :=
  match body with
  | JsonValue (JObj fields) =>
      js_or (default JUndefined (lookup_field "message" fields))
        (js_or (default JUndefined (lookup_field "error" fields))
           (JStr ("HTTP " +:+ pretty status)))
  | _ => JStr ("HTTP " +:+ pretty status)
  end.


(** The state that can be observed once the timeouts are left aside. *)
Definition observable (w : world) :=
  (nodes w, body w, envs w, keydown w, frames w, now w, focused w, requests w).

End Submission.

(** ** The page as a whole: what can happen, one handler at a time *)

Module Page.
Import Js Dom Watcher Modal Submission.

(** [handleNotifyMeClick]: the click listener of the notify button. *)
Definition handleNotifyMeClick (w : world) : world := showEmailModal w.

(** The click listeners registered on the notify button. *)
Definition click_listeners (r : registry) : list listener :=
  filter (λ l, l_target l = NotifyButton ∧ l_type l = "click") (listeners r).

(** A click on the notify button: every click listener registered on it is a
    bound [handleNotifyMeClick], and each one runs. *)
Definition click_notify_button (r : registry) (w : world) : world :=
  foldl (λ w _, handleNotifyMeClick w) w (click_listeners r).

(** Every function object registered so far was created before the next one
    will be. *)
Definition fresh (r : registry) : Prop :=
  Forall (λ l, l_callback l < next_function r) (listeners r).

(** The three parts of a modal whose click listeners close it. *)
Inductive closer : Type := CloseButton | CancelButton | Backdrop.

Definition closer_listeners (p : closer) : modal_node → list nat :=
  match p with
  | CloseButton => close_click
  | CancelButton => cancel_click
  | Backdrop => backdrop_click
  end.

(** The page with the submit handlers that are suspended at their [await],
    in the order in which they made their calls. *)
Definition state : Type := world * list continuation.

(** A submit event on the form of node [m]: every submit listener of that
    form runs up to its return or its [await], one after the other. *)
Definition dispatch_submit (doc : document) (chain : list (path * element))
    (m : nat) (s : state) : state :=
  match nodes s.1 !! m with
  | Some n =>
      foldl (λ s k,
               match submit doc chain k s.1 with
               | Returned w' => (w', s.2)
               | Awaiting w' c => (w', s.2 ++ [c])
               end)
            s (form_submit n)
  | None => s
  end.

(** What can happen on the page, one handler invocation at a time. *)
Inductive event : Type :=
  | NotifyMeClick                              (* a click listener of the notify button runs *)
  | AnimationFrame
  | Keydown (key : string)
  | Click (p : closer) (m : nat)
  | Input (m : nat) (value : string)
  | Timeout                                    (* the next timeout fires *)
  | SubmitForm (m : nat)
  | FetchSettled (i : nat) (o : fetch_outcome). (* the call of the i-th suspended handler ends *)

Definition handle (doc : document) (chain : list (path * element))
    (s : state) (e : event) : state :=
  match e with
  | NotifyMeClick => (handleNotifyMeClick s.1, s.2)
  | AnimationFrame => (animation_frame s.1, s.2)
  | Keydown key => (dispatch_keydown key s.1, s.2)
  | Click p m => (click (closer_listeners p) m s.1, s.2)
  | Input m value => (type_email m value s.1, s.2)
  | Timeout => (run_next s.1, s.2)
  | SubmitForm m => dispatch_submit doc chain m s
  | FetchSettled i o =>
      match s.2 !! i with
      | Some c => (resume c o s.1, delete i s.2)
      | None => s
      end
  end.

Definition run (doc : document) (chain : list (path * element))
    (events : list event) : state :=
  foldl (handle doc chain) (initial, []) events.


(** The four ways of closing a modal by hand. *)
Inductive trigger : Type :=
  | ByClick (p : closer)
  | ByEscape.

Definition close_by (t : trigger) (m : nat) (w : world) : world :=
  match t with
  | ByClick p => click (closer_listeners p) m w
  | ByEscape => dispatch_keydown "Escape" w
  end.

(** Closure [k], which holds node [m], is on its way out: either its
    [closeModal] is still to run from a timeout, or it has run (the keydown
    listener is gone and the visibility class is off) and the node is either
    waiting for its removal or out of the document. *)
Definition closing (k m : nat) (w : world) : Prop :=
  envs w !! k = Some m ∧
  m < length (nodes w) ∧
  ((∃ d, (d, CloseModal k) ∈ timers w) ∨
   ((k ∉ keydown w) ∧
    visible <$> nodes w !! m = Some false ∧
    ((∃ d, (d, RemoveModal m) ∈ timers w) ∨ m ∉ body w))).

(** Closure [k] has closed node [m], whose removal is pending. *)
Definition leaving (k m : nat) (w : world) : Prop :=
  (k ∉ keydown w) ∧
  visible <$> nodes w !! m = Some false ∧
  ∃ d, (d, RemoveModal m) ∈ timers w.

(** Node [m] has been closed by its closure and is out of the document. *)
Definition closed (k m : nat) (w : world) : Prop :=
  (k ∉ keydown w) ∧ visible <$> nodes w !! m = Some false ∧ m ∉ body w.

(** No closure holds node [m] and no timeout will remove it. *)
Definition unbound (m : nat) (w : world) : Prop :=
  (∀ k, envs w !! k ≠ Some m) ∧ (∀ d, (d, RemoveModal m) ∉ timers w).

(** The listeners registered on the parts of a node. *)
Definition node_listeners (n : modal_node) : list nat :=
  close_click n ++ cancel_click n ++ backdrop_click n ++ form_submit n.

(** Every listener on a part of a node belongs to a closure that holds that
    very node. *)
Definition listeners_bound (w : world) : Prop :=
  ∀ m n k, nodes w !! m = Some n → k ∈ node_listeners n → envs w !! k = Some m.

(** Closures hold nodes that exist, keydown listeners are closures that
    exist, attached modals are nodes that exist, each attached once, and the
    listeners of a node close that node. *)
Definition sound (w : world) : Prop :=
  well_formed w ∧ NoDup (body w) ∧ listeners_bound w.

(** From [w] to [w'] closures were only added and calls only made. *)
Definition keeps (w w' : world) : Prop :=
  (∃ more, envs w' = envs w ++ more) ∧ length (requests w) ≤ length (requests w').

(** What every run of the page keeps: the page is sound, every suspended
    handler belongs to a closure that holds the node it will write to, and
    each suspended handler has made its call. *)
Definition invariant (s : state) : Prop :=
  sound s.1 ∧
  Forall (λ c, envs s.1 !! c_closure c = Some (c_modal c)) s.2 ∧
  length s.2 ≤ length (requests s.1).

End Page.

(** ** Sample pages and events *)

Module Samples.
Import Js Dom Watcher.

Definition events : theme_events :=
  {| variantUpdate := "variant:update"; variantSelected := "variant:selected" |}.

(** A product section holding a product form with its variant input and the
    notify-me component, with a variant picker elsewhere on the page. *)
Definition notify_component : element :=
  Element "notify-me-component" [] [] "" false
    [Element "button" [("id", "notify-me-button")] [] "" false []].

Definition product_page : element :=
  Element "html" [] [] "" false
    [Element "body" [] [] "" false
       [Element "div" [("id", "shopify-section-main")] ["shopify-section"] "" false
          [Element "product-form-component" [] [] "" false
             [Element "input" [("name", "id")] [] "4001" false [];
              notify_component]];
        Element "variant-picker" [] [] "" false
          [Element "input" [("data-variant-id", "4002")] [] "" true []]]].

(** The component sits at [html > body > div > product-form-component]. *)
Definition component_path : path := [0; 0; 0; 1].

Definition product_document : document :=
  {| documentElement := product_page; search := [("variant", "4003")] |}.

(** A page with nothing but the component: only the URL names a variant. *)
Definition bare_page : element :=
  Element "html" [] [] "" false
    [Element "body" [] [] "" false [notify_component]].

Definition bare_document : document :=
  {| documentElement := bare_page; search := [("variant", "4003")] |}.

Definition chain_of (root : element) (p : path) : list (path * element) :=
  default [] (inclusive_ancestors root p).

Definition fresh_component : component :=
  {| style_display := ""; notify_button := Some "";
     boundVariantUpdateHandler := None; console := [] |}.

Definition empty_registry : registry := {| listeners := []; next_function := 0 |}.

(** The modal has been opened once and an address typed into it. *)
Definition open_modal : Modal.world :=
  Modal.type_email 0 "shopper@example.com" (Modal.showEmailModal Modal.initial).

Definition product_chain : list (path * element) :=
  chain_of product_page component_path.

(** The same, with an address that has no [@]. *)
Definition open_modal_typo : Modal.world :=
  Modal.type_email 0 "not-an-email" (Modal.showEmailModal Modal.initial).

(** A page on which no variant can be found. *)
Definition anonymous_document : document :=
  {| documentElement := bare_page; search := [] |}.

(** The handler of that modal, suspended at its [await]. *)
Definition in_flight : Modal.world * Submission.continuation :=
  match Submission.submit product_document product_chain 0 open_modal with
  | Submission.Awaiting w c => (w, c)
  | Submission.Returned w =>
      (w, {| Submission.c_closure := 0; Submission.c_modal := 0;
             Submission.c_originalText := "" |})
  end.

Definition sold_out : custom_event :=
  {| ev_type := "variant:update";
     detail := JObj [("resource", JObj [("id", JNum 4001); ("available", JBool false)])] |}.

End Samples.

(** ** A page whose first variant input is empty *)

Module Pages.
Import Js Dom.

(** The product form holds two variant inputs: the first one, which
    [querySelector] returns, has no value yet; the second has. *)
Definition two_inputs_form : element :=
  Element "product-form-component" [] [] "" false
    [Element "input" [("name", "id")] [] "" false [];
     Element "input" [("ref", "variantId")] [] "5002" false [];
     Samples.notify_component].

Definition two_inputs_section : element :=
  Element "div" [] ["shopify-section"] "" false [two_inputs_form].

Definition two_inputs_page : element :=
  Element "html" [] [] "" false
    [Element "body" [] [] "" false [two_inputs_section]].

Definition two_inputs_document : document :=
  {| documentElement := two_inputs_page; search := [] |}.

Definition two_inputs_chain : list (path * element) :=
  Samples.chain_of two_inputs_page [0; 0; 0; 2].

End Pages.

(** * Properties *)

(** ** Strings *)

Module JsFacts.
Import Js.

Lemma append_cons (c : Ascii.ascii) (a b : string) :
  String c a +:+ b = String c (a +:+ b).
Proof. reflexivity. Qed.

Lemma append_empty (b : string) : "" +:+ b = b.
Proof. reflexivity. Qed.

Lemma prefix_true_iff (p s : string) :
  String.prefix p s = true ↔ ∃ rest, s = p +:+ rest.
Proof.
  revert s. induction p as [|a p IH]; intros s.
  - destruct s; simpl; split; eauto.
  - destruct s as [|b s]; simpl.
    + split; [discriminate | intros [rest H]; discriminate].
    + destruct (Ascii.ascii_dec a b) as [->|Hne].
      * rewrite IH. split; intros [rest H]; exists rest;
          rewrite append_cons in *; congruence.
      * split; [discriminate | intros [rest H]; rewrite append_cons in H; congruence].
Qed.

(** [includes] finds exactly the strings that split around the needle. *)
Lemma includes_unfold (hay needle : string) :
  includes hay needle =
  if String.prefix needle hay then true
  else match hay with "" => false | String _ rest => includes rest needle end.
Proof. destruct hay; reflexivity. Qed.

Lemma includes_true_iff (hay needle : string) :
  includes hay needle = true ↔ ∃ before after, hay = before +:+ needle +:+ after.
Proof.
  induction hay as [|c hay IH]; rewrite includes_unfold.
  - destruct (String.prefix needle "") eqn:Hp.
    + apply prefix_true_iff in Hp as [rest Hp].
      split; [intros _; exists "", rest; by rewrite append_empty | done].
    + split; [discriminate |].
      intros [before [after H]]. destruct before.
      * assert (String.prefix needle "" = true); [|congruence].
        apply prefix_true_iff. eauto.
      * discriminate.
  - destruct (String.prefix needle (String c hay)) eqn:Hp.
    + apply prefix_true_iff in Hp as [rest Hp].
      split; [intros _; exists "", rest; by rewrite append_empty | done].
    + rewrite IH. split.
      * intros [before [after ->]]. exists (String c before), after. done.
      * intros [before [after H]]. destruct before as [|b before].
        -- assert (String.prefix needle (String c hay) = true); [|congruence].
           apply prefix_true_iff. eauto.
        -- rewrite append_cons in H. injection H as -> ->. eauto.
Qed.

Lemma eqb_empty_false (s : string) : String.eqb s "" = false ↔ s ≠ "".
Proof. destruct (String.eqb_spec s ""); split; congruence. Qed.

(** Induction on a value, with the property known of the items of an
    array. *)
Lemma jsval_items_ind (P : jsval → Prop) :
  (∀ v, (∀ items, v ≠ JArr items) → P v) →
  (∀ items, Forall P items → P (JArr items)) →
  ∀ v, P v.
Proof.
  intros Hother Harray. fix IH 1. intros v.
  destruct v as [| |b|n|s|fields|items]; try (apply Hother; discriminate).
  apply Harray. induction items as [|item rest IHrest]; constructor; [apply IH | apply IHrest].
Qed.

(** [Array.prototype.join], one item at a time. *)
Lemma to_string_array_cons (item : jsval) (rest : list jsval) :
  to_string (JArr (item :: rest)) =
  match (match item with
         | JUndefined | JNull => Normal ""
         | _ => to_string item
         end) with
  | Normal first =>
      match rest with
      | [] => Normal first
      | _ =>
          match to_string (JArr rest) with
          | Normal others => Normal (first +:+ "," +:+ others)
          | Throw e => Throw e
          end
      end
  | Throw e => Throw e
  end.
Proof. reflexivity. Qed.

(** The one way in which ToString fails on these values. *)
Lemma to_string_throws (v : jsval) (e : js_error) :
  to_string v = Throw e → e = cannot_convert.
Proof.
  revert e. induction v as [v Hv|items IH] using jsval_items_ind; intros e.
  - destruct v as [| |[]|n|s|fields|items]; simpl; try discriminate.
    + destruct (lookup_field "toString" fields); [by intros [= <-] | discriminate].
    + by destruct (Hv items).
  - induction IH as [|item rest Hitem _ IHrest]; [discriminate|].
    rewrite to_string_array_cons.
    assert (Hfirst : ∀ e0, (match item with
                            | JUndefined | JNull => Normal ""
                            | _ => to_string item
                            end) = Throw e0 → e0 = cannot_convert).
    { intros e0. destruct item; try discriminate; apply Hitem. }
    destruct (match item with JUndefined | JNull => Normal "" | _ => to_string item end)
      as [first|e0]; [|intros [= <-]; by apply Hfirst].
    destruct rest as [|item' rest']; [discriminate|].
    destruct (to_string (JArr (item' :: rest'))) as [others|e1]; [discriminate|].
    intros [= <-]. by apply IHrest.
Qed.

Lemma raised_converts (v : jsval) :
  v ≠ JUndefined →
  (∃ text, to_string v = Normal text ∧ raised v = new_Error text) ∨
  (to_string v = Throw cannot_convert ∧ raised v = cannot_convert).
Proof.
  intros Hv.
  assert (H : raised v = match to_string v with
                         | Normal text => new_Error text
                         | Throw e => e
                         end) by (by destruct v).
  rewrite H. destruct (to_string v) as [text|e] eqn:Ht; [eauto|].
  right. by rewrite (to_string_throws v e Ht).
Qed.

(** How [throw new Error(v)] ends: with a new error, or with the TypeError
    of a conversion that fails. *)
Lemma raised_cases (v : jsval) :
  (∃ text, raised v = new_Error text) ∨
  (to_string v = Throw cannot_convert ∧ raised v = cannot_convert).
Proof.
  assert (Hv : v = JUndefined ∨ v ≠ JUndefined) by (destruct v; auto).
  destruct Hv as [->|Hv]; [left; by exists ""|].
  destruct (raised_converts v Hv) as [(text & _ & H)|H]; eauto.
Qed.

(** The message of what is thrown is a given non-empty text other than that
    of the TypeError only when the value converts to that text. *)
Lemma raised_message (v : jsval) (text : string) :
  text ≠ "" → text ≠ err_message cannot_convert →
  err_message (raised v) = text → to_string v = Normal text.
Proof.
  intros Hne Hnc.
  assert (Hv : v = JUndefined ∨ v ≠ JUndefined) by (destruct v; auto).
  destruct Hv as [->|Hv]; [simpl; congruence|].
  destruct (raised_converts v Hv) as [(t & Ht & ->)|[_ ->]].
  - simpl. by intros <-.
  - intros H. by destruct Hnc.
Qed.

End JsFacts.

(** ** The availability watcher *)

Module WatcherFacts.
Import Js Dom Watcher.

Lemma resource_object (event : custom_event) (fields : list (string * jsval)) :
  opt_member (detail event) "resource" = JObj fields ↔
  ∃ payload, detail event = JObj payload ∧
             lookup_field "resource" payload = Some (JObj fields).
Proof.
  unfold opt_member, get_prop. split.
  - destruct (detail event) as [| | | | |payload|]; try discriminate.
    destruct (lookup_field "resource" payload) eqn:E; simpl; [|discriminate].
    intros ->. eauto.
  - intros [payload [-> ->]]. done.
Qed.

Lemma resource_available_iff (event : custom_event) (b : bool) :
  resource_available event b ↔
  ∃ fields, opt_member (detail event) "resource" = JObj fields ∧
            lookup_field "available" fields = Some (JBool b).
Proof.
  unfold resource_available. split.
  - intros (payload & fields & Hd & Hr & Ha). exists fields. split; [|done].
    apply resource_object. eauto.
  - intros (fields & Hv & Ha). apply resource_object in Hv as (payload & Hd & Hr).
    eauto 6.
Qed.

(** The test [variant && variant.available === b] never throws, and succeeds
    exactly on a resource object whose [available] is [b]. *)
Lemma availability_test (variant : jsval) (b : bool) :
  ∃ r : bool,
    (if truthy variant
     then a ← member variant "available"; mret (strict_eq_bool a b)
     else mret false) = Normal r ∧
    (r = true ↔ ∃ fields, variant = JObj fields ∧
                          lookup_field "available" fields = Some (JBool b)).
Proof.
  destruct variant as [| |c|n|s|fields|items]; simpl.
  1,2,7: exists false; split; [done|]; split; [done | intros (? & ? & _); done].
  - exists false. destruct c; (split; [done|]);
      (split; [done | intros (? & ? & _); done]).
  - exists false. destruct (n =? 0)%Z; (split; [done|]);
      (split; [done | intros (? & ? & _); done]).
  - exists false. destruct (String.eqb s ""); (split; [done|]);
      (split; [done | intros (? & ? & _); done]).
  - eexists. split; [reflexivity|].
    destruct (lookup_field "available" fields) as [a|] eqn:E; simpl.
    + destruct a as [| |c| | | |]; simpl;
        try (split; [done | intros (? & [= <-] & H); rewrite E in H; done]).
      destruct c, b; simpl;
        try (split; [done | intros (? & [= <-] & H); rewrite E in H; done]);
        (split; [intros _; eauto | done]).
    + split; [done | intros (? & [= <-] & H); rewrite E in H; done].
Qed.

Lemma member_id_object (fields : list (string * jsval)) :
  member (JObj fields) "id" = Normal (get_prop (JObj fields) "id").
Proof. done. Qed.

(** The guard of [handleVariantUpdate]: without the button nothing changes. *)
Lemma handleVariantUpdate_without_button (this : component) (event : custom_event) :
  notify_button this = None → handleVariantUpdate this event = Normal this.
Proof. intros H. unfold handleVariantUpdate. by rewrite H. Qed.

(** C1. For every variant event the component receives, whatever its type
    and payload, [handleVariantUpdate] completes without throwing and leaves
    the control shown exactly when the payload's resource is present with
    [available === false]; the control is hidden when the resource is present
    with [available === true], when the resource is absent or null, and for
    every other (malformed) payload.  The component is assumed to contain its
    [#notify-me-button]. *)
Theorem handleVariantUpdate_visibility
    (this : component) (event : custom_event) (display : string) :
  notify_button this = Some display →
  ∃ this',
    handleVariantUpdate this event = Normal this' ∧
    (shown this' ↔ resource_available event false) ∧
    (resource_available event true → hidden this') ∧
    (resource_absent event → hidden this') ∧
    (¬ resource_available event false → hidden this').
Proof.
  intros Hbutton. unfold handleVariantUpdate. rewrite Hbutton.
  set (variant := opt_member (detail event) "resource").
  destruct (availability_test variant false) as (u & -> & Hu).
  destruct (availability_test variant true) as (a & Ha' & Ha).
  simpl. fold variant in Ha'.
  assert (Hhide : ∀ line, hidden (set_display this "none" "none" line)) by done.
  assert (Hnot : ∀ line, ¬ shown (set_display this "none" "none" line)).
  { intros line [H _]. discriminate. }
  destruct u.
  - destruct (proj1 Hu eq_refl) as (fields & Hv & Hf).
    rewrite Hv, member_id_object. simpl. eexists. split; [reflexivity|].
    assert (Hres : resource_available event false).
    { apply resource_available_iff. exists fields. by rewrite <- Hv. }
    split; [split; [done | intros _; done]|].
    split; [|split; [|done]].
    + intros Ht. apply resource_available_iff in Ht as (fields' & Hv' & Hf').
      fold variant in Hv'. congruence.
    + intros [Habs|Habs]; fold variant in Habs; congruence.
  - assert (Hres : ¬ resource_available event false).
    { intros H. apply resource_available_iff in H. apply Hu in H. done. }
    rewrite Ha'. simpl. destruct a.
    + destruct (proj1 Ha eq_refl) as (fields & Hv & Hf).
      rewrite Hv, member_id_object. simpl. eexists. split; [reflexivity|].
      split; [split; [intros H; by apply Hnot in H | done]|]. auto.
    + eexists. split; [reflexivity|].
      split; [split; [intros H; by apply Hnot in H | done]|]. auto.
Qed.

(** A payload seen at work: the selected variant is sold out. *)
Lemma handleVariantUpdate_visibility_sold_out :
  ∃ this',
    handleVariantUpdate Samples.fresh_component Samples.sold_out = Normal this' ∧
    (shown this' ↔ resource_available Samples.sold_out false) ∧
    (resource_available Samples.sold_out true → hidden this') ∧
    (resource_absent Samples.sold_out → hidden this') ∧
    (¬ resource_available Samples.sold_out false → hidden this').
Proof.
  exact (handleVariantUpdate_visibility
           Samples.fresh_component Samples.sold_out "" eq_refl).
Defined.

(** *** Subscribing and unsubscribing *)

Lemma elem_of_addEventListener (l l' : listener) (ls : list listener) :
  l ∈ addEventListener l' ls ↔ l = l' ∨ l ∈ ls.
Proof.
  unfold addEventListener. case_decide as Hin.
  - split; [auto | intros [->|]; done].
  - rewrite elem_of_app, list_elem_of_singleton. tauto.
Qed.

Lemma elem_of_removeEventListener (l l' : listener) (ls : list listener) :
  l ∈ removeEventListener l' ls ↔ l ≠ l' ∧ l ∈ ls.
Proof. unfold removeEventListener. by rewrite list_elem_of_filter. Qed.

Section subscription.
Variable ev : theme_events.
Variables chain chain' : list (path * element).
Variables (this this' : component) (r r' : registry).
Hypothesis connected : connectedCallback ev chain this r = (this', r').

Let handler : nat := next_function (setupNotifyButton this r).

Lemma connected_handler : boundVariantUpdateHandler this' = Some handler.
Proof using connected.
  unfold connectedCallback, setupVariantUpdateListener in connected.
  by injection connected as <- <-.
Qed.

(** Attachment registers the handler for both events on the scope found at
    that time. *)
Lemma connected_listeners (type : string) :
  type = variantUpdate ev ∨ type = variantSelected ev →
  Listener (scope chain) type handler ∈ listeners r'.
Proof using connected.
  unfold connectedCallback, setupVariantUpdateListener in connected.
  injection connected as <- <-. simpl.
  rewrite !elem_of_addEventListener. intros [->| ->]; auto.
Qed.

(** When detachment finds the same scope, both listeners are removed. *)
Lemma disconnected_same_scope (type : string) :
  scope chain' = scope chain →
  type = variantUpdate ev ∨ type = variantSelected ev →
  Listener (scope chain) type handler ∉ listeners (disconnectedCallback ev chain' this' r').
Proof using connected.
  intros Hscope Htype. unfold disconnectedCallback.
  rewrite connected_handler, Hscope. simpl.
  rewrite !elem_of_removeEventListener. intros (H1 & H2 & _).
  destruct Htype as [->| ->]; done.
Qed.

(** When detachment finds another scope, both listeners stay registered on
    the scope of attachment. *)
Lemma disconnected_other_scope (type : string) :
  scope chain' ≠ scope chain →
  type = variantUpdate ev ∨ type = variantSelected ev →
  Listener (scope chain) type handler ∈ listeners (disconnectedCallback ev chain' this' r').
Proof using connected.
  intros Hscope Htype. unfold disconnectedCallback.
  rewrite connected_handler. simpl.
  rewrite !elem_of_removeEventListener.
  split; [congruence|]. split; [congruence|].
  by apply connected_listeners.
Qed.
End subscription.

(** C9, at a concrete page.  The component is attached inside a section, so
    [setupVariantUpdateListener] subscribes on that section.  When the
    component is then removed from its parent, [disconnectedCallback] runs
    with the parent links cut: [closest] finds no section, the listeners are
    removed from the document instead, and the two subscriptions on the
    section remain. *)
Theorem disconnectedCallback_other_scope_on_removal :
  let chain := Samples.chain_of Samples.product_page Samples.component_path in
  let removed := detach 4 chain in
  let '(this', r') :=
    connectedCallback Samples.events chain Samples.fresh_component Samples.empty_registry in
  scope chain = Node [0; 0] ∧
  scope removed = Document ∧
  listeners r' =
    [Listener NotifyButton "click" 0;
     Listener (Node [0; 0]) "variant:update" 1;
     Listener (Node [0; 0]) "variant:selected" 1] ∧
  listeners (disconnectedCallback Samples.events removed this' r') = listeners r'.
Proof. vm_compute. done. Qed.

(** On the same page, when the whole section is removed instead, the
    component still reaches the section through its parent links and both
    subscriptions are removed from it. *)
Lemma disconnectedCallback_same_scope_on_section_removal :
  let chain := Samples.chain_of Samples.product_page Samples.component_path in
  let removed := detach 2 chain in
  let '(this', r') :=
    connectedCallback Samples.events chain Samples.fresh_component Samples.empty_registry in
  scope removed = scope chain ∧
  listeners (disconnectedCallback Samples.events removed this' r') =
    [Listener NotifyButton "click" 0].
Proof. vm_compute. done. Qed.

End WatcherFacts.

(** ** Variant resolution *)

Module VariantFacts.
Import Js Dom Variant.

Lemma non_empty_true (s : string) : non_empty s = true ↔ s ≠ "".
Proof.
  unfold non_empty. destruct (String.eqb_spec s ""); simpl; split; congruence.
Qed.

Lemma first_non_empty_nil : first_non_empty [] = None.
Proof. done. Qed.

Lemma first_non_empty_cons (v : string) (vs : list string) :
  first_non_empty (v :: vs) = if non_empty v then Some v else first_non_empty vs.
Proof.
  unfold first_non_empty. rewrite filter_cons.
  destruct (non_empty v) eqn:E.
  - apply non_empty_true in E. by rewrite decide_True.
  - rewrite decide_False; [done|]. intros H. apply non_empty_true in H. congruence.
Qed.

Lemma first_non_empty_app (vs ws : list string) :
  first_non_empty (vs ++ ws) =
  match first_non_empty vs with
  | Some v => Some v
  | None => first_non_empty ws
  end.
Proof. unfold first_non_empty. by rewrite filter_app, head_app. Qed.

Lemma first_non_empty_option (o : option string) :
  first_non_empty (option_list o) =
  match o with
  | Some v => if negb (String.eqb v "") then Some v else None
  | None => None
  end.
Proof.
  destruct o as [v|]; [|done]. simpl. rewrite first_non_empty_cons.
  unfold non_empty. by destruct (String.eqb v "").
Qed.

Lemma first_non_empty_is_non_empty (vs : list string) (v : string) :
  first_non_empty vs = Some v → v ≠ "" ∧ v ∈ vs.
Proof.
  unfold first_non_empty. intros H.
  assert (Hin : v ∈ filter (λ v, v ≠ "") vs).
  { destruct (filter _ vs); [done|]. injection H as ->. left. }
  by apply list_elem_of_filter in Hin.
Qed.

Lemma first_non_empty_None (vs : list string) :
  first_non_empty vs = None ↔ ∀ v, v ∈ vs → v = "".
Proof.
  induction vs as [|w vs IH].
  - split; [intros _ v Hin; by apply elem_of_nil in Hin | done].
  - rewrite first_non_empty_cons. destruct (non_empty w) eqn:E.
    + apply non_empty_true in E. split; [done|].
      intros H. destruct E. apply H. left.
    + assert (w = "") as ->.
      { destruct (decide (w = "")) as [|Hne]; [done|].
        apply non_empty_true in Hne. congruence. }
      rewrite IH. split.
      * intros H v Hin. apply elem_of_cons in Hin as [->|Hin]; auto.
      * intros H v Hin. apply H. by right.
Qed.

(** The loop over the inputs of the section returns the first non-empty
    value among theirs. *)
Lemma first_value_spec (inputs : list element) :
  first_value inputs = first_non_empty (value <$> inputs).
Proof.
  induction inputs as [|input rest IH]; [done|].
  simpl. rewrite first_non_empty_cons. by destruct (non_empty (value input)).
Qed.

Lemma from_form_spec (chain : list (path * element)) :
  match closest chain sel_product_form with
  | Some (_, productForm) =>
      match querySelector productForm sel_variant_input with
      | Some variantInput =>
          let v := value variantInput in
          if non_empty v then Some v else None
      | None => None
      end
  | None => None
  end = first_non_empty (source_product_form chain).
Proof.
  unfold source_product_form.
  destruct (closest chain sel_product_form) as [[p form]|]; [|done].
  destruct (querySelector form sel_variant_input) as [input|]; [|done].
  simpl. rewrite first_non_empty_cons. by destruct (non_empty (value input)).
Qed.

Lemma from_section_spec (chain : list (path * element)) :
  match closest chain sel_section with
  | Some (_, section) => first_value (querySelectorAll section sel_variant_input)
  | None => None
  end = first_non_empty (source_section chain).
Proof.
  unfold source_section.
  destruct (closest chain sel_section) as [[p section]|]; [|done].
  apply first_value_spec.
Qed.

Lemma from_picker_spec (doc : document) :
  match document_querySelector doc sel_variant_picker with
  | Some variantPicker =>
      match querySelector variantPicker sel_selected_variant with
      | Some selectedVariant =>
          match getAttribute "data-variant-id" (attributes selectedVariant) with
          | Some variantId =>
              if negb (String.eqb variantId "") then Some variantId else None
          | None => None
          end
      | None => None
      end
  | None => None
  end = first_non_empty (source_picker doc).
Proof.
  unfold source_picker.
  destruct (document_querySelector doc sel_variant_picker) as [picker|]; [|done].
  destruct (querySelector picker sel_selected_variant) as [input|]; [|done].
  by rewrite first_non_empty_option.
Qed.

(** [getVariantId] takes the first non-empty value that the four sources
    offer, in their order. *)
Lemma getVariantId_spec (doc : document) (chain : list (path * element)) :
  getVariantId doc chain =
  first_non_empty (source_product_form chain ++ source_section chain ++
                   source_picker doc ++ source_url doc).
Proof.
  unfold getVariantId.
  rewrite from_form_spec, from_section_spec, from_picker_spec.
  rewrite !first_non_empty_app.
  destruct (first_non_empty (source_product_form chain)); [done|].
  destruct (first_non_empty (source_section chain)); [done|].
  destruct (first_non_empty (source_picker doc)); [done|].
  unfold source_url. by rewrite first_non_empty_option.
Qed.

(** C2. [getVariantId] consults (1) the variant input of the nearest
    product-form ancestor, (2) the variant inputs of the nearest enclosing
    section, (3) the checked input of the page-level variant picker and (4)
    the [variant] query parameter, in exactly this order, and returns the
    first non-empty value found, or null when there is none.  In particular
    a product-form value wins over whatever the other sources and the URL
    offer, and a URL parameter alone is used. *)
Theorem getVariantId_priority (doc : document) (chain : list (path * element)) :
  getVariantId doc chain =
    first_non_empty (source_product_form chain ++ source_section chain ++
                     source_picker doc ++ source_url doc) ∧
  (∀ v, first_non_empty (source_product_form chain) = Some v →
        getVariantId doc chain = Some v) ∧
  (first_non_empty (source_product_form chain) = None →
   first_non_empty (source_section chain) = None →
   first_non_empty (source_picker doc) = None →
   getVariantId doc chain = first_non_empty (source_url doc)) ∧
  (∀ v, getVariantId doc chain = Some v → v ≠ "") ∧
  (getVariantId doc chain = None ↔
   ∀ v, v ∈ source_product_form chain ++ source_section chain ++
            source_picker doc ++ source_url doc → v = "").
Proof.
  pose proof (getVariantId_spec doc chain) as Hspec.
  split; [done|].
  rewrite !first_non_empty_app in Hspec.
  split; [intros v Hv; by rewrite Hspec, Hv|].
  split; [intros H1 H2 H3; by rewrite Hspec, H1, H2, H3|].
  rewrite getVariantId_spec. split.
  - intros v H. by apply first_non_empty_is_non_empty in H as [H _].
  - apply first_non_empty_None.
Qed.

(** On the product page the form input offers 4001, the picker 4002 and the
    URL 4003: the form wins.  With only the URL parameter, it is used. *)
Lemma getVariantId_priority_product_page :
  getVariantId Samples.product_document
    (Samples.chain_of Samples.product_page Samples.component_path) = Some "4001" ∧
  getVariantId Samples.bare_document
    (Samples.chain_of Samples.bare_page [0; 0]) = Some "4003".
Proof.
  split.
  - exact (proj1 (proj2 (getVariantId_priority Samples.product_document
             (Samples.chain_of Samples.product_page Samples.component_path)))
           "4001" eq_refl).
  - exact (eq_trans
             (proj1 (proj2 (proj2 (getVariantId_priority Samples.bare_document
                (Samples.chain_of Samples.bare_page [0; 0]))))
                eq_refl eq_refl eq_refl)
             eq_refl).
Defined.

End VariantFacts.

(** ** The submit handler *)

Module SubmissionFacts.
Import Js Dom Modal Submission.

(** *** Reading and writing nodes *)

Lemma lookup_update_node (m : nat) (f : modal_node → modal_node) (w : world) :
  nodes (update_node m f w) !! m = f <$> nodes w !! m.
Proof. unfold update_node. simpl. apply list_lookup_alter_eq. Qed.

Lemma lookup_update_node_ne (m m' : nat) (f : modal_node → modal_node) (w : world) :
  m ≠ m' → nodes (update_node m f w) !! m' = nodes w !! m'.
Proof. intros H. unfold update_node. simpl. by apply list_lookup_alter_ne. Qed.

Lemma length_update_node (m : nat) (f : modal_node → modal_node) (w : world) :
  length (nodes (update_node m f w)) = length (nodes w).
Proof. unfold update_node. simpl. apply length_alter. Qed.

Lemma nodes_setTimeout (delay : nat) (t : timer) (w : world) :
  nodes (setTimeout delay t w) = nodes w.
Proof. done. Qed.

Lemma lookup_showMessage (m : nat) (message type : string) (w : world) :
  nodes (showMessage m message type w) !! m =
  set_message message ("notify-me-form__message notify-me-form__message--" +:+ type)
    "block" <$> nodes w !! m.
Proof. apply lookup_update_node. Qed.

Lemma shown_message_showMessage (m : nat) (message type : string) (w : world) :
  m < length (nodes w) →
  shown_message m (showMessage m message type w) =
  Some (message, "notify-me-form__message notify-me-form__message--" +:+ type).
Proof.
  intros Hm. unfold shown_message. rewrite lookup_showMessage.
  destruct (lookup_lt_is_Some_2 _ _ Hm) as [n ->]. done.
Qed.

Lemma shown_message_update_submit (m m' : nat) (d : bool) (t : string) (w : world) :
  shown_message m (update_node m' (set_submit d t) w) = shown_message m w.
Proof.
  unfold shown_message. destruct (decide (m' = m)) as [->|Hne].
  - rewrite lookup_update_node. by destruct (nodes w !! m).
  - by rewrite lookup_update_node_ne.
Qed.

Lemma includes_contains (s sub : string) : includes s sub = true ↔ contains s sub.
Proof. apply JsFacts.includes_true_iff. Qed.

(** The test [!email || !email.includes("@")] of the handler. *)
Lemma validation_test (email : string) :
  String.eqb email "" || negb (includes email "@") = false ↔
  email ≠ "" ∧ contains email "@".
Proof.
  rewrite <- includes_contains, <- JsFacts.eqb_empty_false.
  destruct (String.eqb email ""), (includes email "@"); simpl; split;
    try done; intros [? ?]; done.
Qed.

(** C4. A submission whose trimmed email is empty or has no [@] shows the
    validation message and makes no network request: the handler returns
    without reaching [fetch] and the list of requests is unchanged.  The
    handler rejects in this way exactly the emails that are not both
    non-empty and containing [@]. *)
Theorem submit_validation
    (doc : document) (chain : list (path * element))
    (k modal : nat) (form : modal_node) (w : world) :
  envs w !! k = Some modal →
  nodes w !! modal = Some form →
  let email := trim (email_value form) in
  let rejected := showMessage modal validation_message "error" w in
  ((email = "" ∨ ¬ contains email "@") →
   submit doc chain k w = Returned rejected ∧
   shown_message modal rejected = Some (validation_message, error_class) ∧
   requests rejected = requests w) ∧
  (submit doc chain k w = Returned rejected ↔ ¬ (email ≠ "" ∧ contains email "@")).
Proof.
  intros Hk Hm email rejected.
  assert (Hlt : modal < length (nodes w)) by (by eapply lookup_lt_Some).
  assert (Hshown : shown_message modal rejected = Some (validation_message, error_class)).
  { by apply shown_message_showMessage. }
  unfold submit. rewrite Hk, Hm. fold email.
  destruct (String.eqb email "" || negb (includes email "@")) eqn:Htest.
  - assert (Hinvalid : ¬ (email ≠ "" ∧ contains email "@")).
    { intros H. apply validation_test in H. congruence. }
    split; [done|]. split; [done|]. intros _. done.
  - apply validation_test in Htest as Hvalid. destruct Hvalid as [Hne Hat]. split.
    + intros [Hempty|Hno]; done.
    + split; [|intros H; by destruct H]. intros H. exfalso.
      destruct (no_variant (Variant.getVariantId doc chain)); [|discriminate].
      apply (f_equal (λ r, match r with
                           | Returned w0 => shown_message modal w0
                           | Awaiting _ _ => None
                           end)) in H.
      rewrite Hshown, shown_message_showMessage in H by done. discriminate.
Qed.

(** C5. A submission with a valid email for which [getVariantId] returns
    null shows the unresolved-variant message and makes no network request. *)
Theorem submit_unresolved_variant
    (doc : document) (chain : list (path * element))
    (k modal : nat) (form : modal_node) (w : world) :
  envs w !! k = Some modal →
  nodes w !! modal = Some form →
  let email := trim (email_value form) in
  email ≠ "" →
  contains email "@" →
  Variant.getVariantId doc chain = None →
  let failed := showMessage modal variant_message "error" w in
  submit doc chain k w = Returned failed ∧
  shown_message modal failed = Some (variant_message, error_class) ∧
  requests failed = requests w.
Proof.
  intros Hk Hm email Hne Hat Hnone failed.
  assert (Hlt : modal < length (nodes w)) by (by eapply lookup_lt_Some).
  unfold submit. rewrite Hk, Hm. fold email.
  rewrite (proj2 (validation_test email)) by done.
  rewrite Hnone. simpl. split; [done|]. split; [|done].
  by apply shown_message_showMessage.
Qed.

(** The [finally] clause: however the call ends, the button is enabled again
    and gets back the text the handler saved. *)
Lemma resume_restores (c : continuation) (o : fetch_outcome) (w : world) :
  c_modal c < length (nodes w) →
  ∃ final, nodes (resume c o w) !! c_modal c = Some final ∧
           submit_disabled final = false ∧
           submit_text final = c_originalText c.
Proof.
  intros Hlt. unfold resume. rewrite lookup_update_node.
  match goal with |- context [nodes ?after !! _] =>
    assert (Hafter : c_modal c < length (nodes after)) end.
  { destruct (submitNotification o); unfold showMessage;
      rewrite ?nodes_setTimeout, ?length_update_node; done. }
  destruct (lookup_lt_is_Some_2 _ _ Hafter) as [n ->]. eauto.
Qed.

(** *** The submit button while a call is in flight *)











(** The address [not-an-email] is turned down before any request. *)
Lemma submit_validation_not_an_email :
  let w := Samples.open_modal_typo in
  let rejected := showMessage 0 validation_message "error" w in
  submit Samples.product_document Samples.product_chain 0 w = Returned rejected ∧
  shown_message 0 rejected = Some (validation_message, error_class) ∧
  requests rejected = requests w.
Proof.
  refine (proj1 (submit_validation Samples.product_document Samples.product_chain
                   0 0 (set_email "not-an-email" (add_listeners 0 template))
                   Samples.open_modal_typo eq_refl eq_refl) _).
  right. intros H. apply includes_contains in H. vm_compute in H. discriminate.
Defined.

(** With a valid address on a page that names no variant. *)
Lemma submit_unresolved_variant_anonymous :
  let w := Samples.open_modal in
  let failed := showMessage 0 variant_message "error" w in
  submit Samples.anonymous_document (Samples.chain_of Samples.bare_page [0; 0]) 0 w =
    Returned failed ∧
  shown_message 0 failed = Some (variant_message, error_class) ∧
  requests failed = requests w.
Proof.
  refine (submit_unresolved_variant Samples.anonymous_document
            (Samples.chain_of Samples.bare_page [0; 0])
            0 0 (set_email "shopper@example.com" (add_listeners 0 template))
            Samples.open_modal eq_refl eq_refl _ _ eq_refl).
  - vm_compute. discriminate.
  - exists "shopper", "example.com". reflexivity.
Defined.


(** *** How the call ends *)

Lemma submitNotification_ok (status : N) (body : json_result) :
  response_ok status = true →
  submitNotification (Response status body) = json body.
Proof. intros H. unfold submitNotification. by rewrite H. Qed.

Lemma member_object_or_primitive (v : jsval) (p : string) :
  v ≠ JUndefined → v ≠ JNull → member v p = Normal (get_prop v p).
Proof. by destruct v. Qed.

(** What is thrown for the value reported is never mistaken for a failure
    of [fetch] by the [catch] clause. *)
Lemma raised_rethrown (v : jsval) :
  String.eqb (err_name (raised v)) "TypeError" &&
    includes (err_message (raised v)) "fetch" = false.
Proof.
  destruct (JsFacts.raised_cases v) as [(text & ->)|[_ ->]]; done.
Qed.

Lemma submitNotification_server_error (status : N) (body : json_result) :
  response_ok status = false →
  submitNotification (Response status body) =
  Throw (raised (server_error_value status body)).
Proof.
  intros H. unfold submitNotification. rewrite H. simpl.
  assert (Hraise : ∀ v,
            (if String.eqb (err_name (raised v)) "TypeError" &&
                  includes (err_message (raised v)) "fetch"
             then Throw (new_Error connectivity_message)
             else Throw (raised v) : completion jsval) = Throw (raised v)).
  { intros v. by rewrite raised_rethrown. }
  destruct body as [v|msg]; [|done].
  destruct v as [| |b|n|s|fields|items]; first [done | apply Hraise].
Qed.

Lemma submitNotification_transport (msg : string) :
  submitNotification (transport_failure msg) =
  Throw (if includes msg "fetch" then new_Error connectivity_message
         else {| err_name := "TypeError"; err_message := msg |}).
Proof.
  unfold submitNotification, transport_failure. simpl.
  by destruct (includes msg "fetch").
Qed.

(** What the handler shows when the promise of [submitNotification] is
    rejected. *)
Lemma resume_rejected (c : continuation) (o : fetch_outcome) (e : js_error) (w : world) :
  c_modal c < length (nodes w) →
  submitNotification o = Throw e →
  shown_message (c_modal c) (resume c o w) =
    Some (if String.eqb (err_message e) "" then fallback_message else err_message e,
          error_class) ∧
  email_value <$> nodes (resume c o w) !! c_modal c =
    email_value <$> nodes w !! c_modal c ∧
  timers (resume c o w) = timers w.
Proof.
  intros Hlt He. unfold resume. rewrite He.
  rewrite shown_message_update_submit, shown_message_showMessage by done.
  split; [by destruct (String.eqb (err_message e) "")|]. split; [|done].
  rewrite lookup_update_node, lookup_showMessage.
  by destruct (nodes w !! c_modal c).
Qed.

(** What the handler does when that promise is fulfilled. *)
Lemma resume_fulfilled (c : continuation) (o : fetch_outcome) (v : jsval) (w : world) :
  c_modal c < length (nodes w) →
  submitNotification o = Normal v →
  shown_message (c_modal c) (resume c o w) = Some (success_message, success_class) ∧
  email_value <$> nodes (resume c o w) !! c_modal c = Some "" ∧
  timers (resume c o w) = enqueue (now w + 2500) (CloseModal (c_closure c)) (timers w).
Proof.
  intros Hlt Hv. unfold resume. rewrite Hv.
  destruct (lookup_lt_is_Some_2 _ _ Hlt) as [n Hn].
  split; [|split; [|done]].
  - unfold shown_message. rewrite lookup_update_node, nodes_setTimeout,
      lookup_update_node, lookup_showMessage, Hn. done.
  - rewrite lookup_update_node, nodes_setTimeout,
      lookup_update_node, lookup_showMessage, Hn. done.
Qed.

(** With a success status and a body that parses as JSON, the handler shows
    the confirmation, clears the email field and schedules [closeModal] 2500
    milliseconds later. *)
Lemma resume_success_json (c : continuation) (status : N) (v : jsval) (w : world) :
  c_modal c < length (nodes w) →
  response_ok status = true →
  let w2 := resume c (Response status (JsonValue v)) w in
  shown_message (c_modal c) w2 = Some (success_message, success_class) ∧
  email_value <$> nodes w2 !! c_modal c = Some "" ∧
  timers w2 = enqueue (now w + 2500) (CloseModal (c_closure c)) (timers w).
Proof.
  intros Hlt Hok. apply (resume_fulfilled c _ v w Hlt).
  by rewrite submitNotification_ok.
Qed.

(** C3, at a concrete submission.  The address is valid and the variant is
    resolved, so the request is sent; the server answers 200 with an empty
    body.  [response.json()] is returned without being awaited, its
    rejection settles the promise of [submitNotification], and the handler
    shows the text of the parse error as an error: no confirmation, the
    email field keeps its value, and no close is scheduled. *)
Theorem success_status_unparsable_body :
  let w1 := Samples.in_flight.1 in
  let c := Samples.in_flight.2 in
  let w2 := resume c (Response 200 (JsonSyntaxError "Unexpected end of JSON input")) w1 in
  submit Samples.product_document Samples.product_chain 0 Samples.open_modal =
    Awaiting w1 c ∧
  requests w1 = [notification_request "4001" "shopper@example.com"] ∧
  response_ok 200 = true ∧
  shown_message 0 w2 = Some ("Unexpected end of JSON input", error_class) ∧
  email_value <$> nodes w2 !! 0 = Some "shopper@example.com" ∧
  timers w2 = timers w1.
Proof. vm_compute. done. Qed.

(** C7, as stated, fails for a browser whose connection errors do not
    mention [fetch]: the raw text is shown. *)
Lemma transport_failure_raw_text :
  let w1 := Samples.in_flight.1 in
  let c := Samples.in_flight.2 in
  shown_message 0 (resume c (transport_failure "Load failed") w1) =
    Some ("Load failed", error_class) ∧
  "Load failed" ≠ connectivity_message.
Proof. split; [vm_compute; done | discriminate]. Qed.

(** C7, amended.  When the network call is rejected with a [TypeError] whose
    message contains [fetch], the user is shown the fixed connectivity
    message instead of the raw text; a transport failure whose message lacks
    [fetch] is shown with its own text (the general apology when it is
    empty).  A server-reported error is never replaced: the promise is
    rejected with what [throw new Error(...)] throws for the value the
    response reports (the [message] of its body, else its [error], else the
    HTTP status), the handler shows the text of that error (the general
    apology when it is empty), and that text is the connectivity message
    only when the reported value itself converts to those words. *)
Theorem transport_failure_message (c : continuation) (w : world) (msg : string) :
  c_modal c < length (nodes w) →
  (contains msg "fetch" →
   shown_message (c_modal c) (resume c (transport_failure msg) w) =
     Some (connectivity_message, error_class)) ∧
  (¬ contains msg "fetch" →
   shown_message (c_modal c) (resume c (transport_failure msg) w) =
     Some (if String.eqb msg "" then fallback_message else msg, error_class)) ∧
  (∀ status body,
     response_ok status = false →
     let e := raised (server_error_value status body) in
     submitNotification (Response status body) = Throw e ∧
     shown_message (c_modal c) (resume c (Response status body) w) =
       Some (if String.eqb (err_message e) "" then fallback_message else err_message e,
             error_class) ∧
     (err_message e = connectivity_message →
      to_string (server_error_value status body) = Normal connectivity_message)).
Proof.
  intros Hlt. split; [|split].
  - intros H. apply includes_contains in H.
    apply (resume_rejected c _ (new_Error connectivity_message) w Hlt).
    by rewrite submitNotification_transport, H.
  - intros H. rewrite <- includes_contains in H. apply not_true_is_false in H.
    apply (resume_rejected c _ {| err_name := "TypeError"; err_message := msg |} w Hlt).
    by rewrite submitNotification_transport, H.
  - intros status body Hok e.
    pose proof (submitNotification_server_error status body Hok) as He. fold e in He.
    split; [exact He|]. split.
    + by apply (resume_rejected c _ e w Hlt).
    + unfold e. apply JsFacts.raised_message; discriminate.
Qed.

(** Chrome reports a failed connection as [Failed to fetch]. *)
Lemma transport_failure_message_failed_to_fetch :
  shown_message 0
    (resume Samples.in_flight.2 (transport_failure "Failed to fetch") Samples.in_flight.1) =
  Some (connectivity_message, error_class).
Proof.
  refine (proj1 (transport_failure_message Samples.in_flight.2 Samples.in_flight.1
                   "Failed to fetch" _) _).
  - vm_compute. lia.
  - exists "Failed to ", "". reflexivity.
Defined.

End SubmissionFacts.

(** ** The modal dialog *)

Module ModalFacts.
Import Js Dom Modal Submission.

(** *** Opening *)

Lemma getElementById_inserted (w : world) :
  head (body w ++ [length (nodes w)]) = Some (first_modal w).
Proof. rewrite head_snoc. unfold first_modal. by destruct (head (body w)). Qed.

Lemma showEmailModal_unfold (w : world) :
  showEmailModal w =
  setTimeout 100 (FocusEmail (first_modal w))
    (update_node (first_modal w) (add_listeners (length (envs w)))
       (with_keydown (λ ls, ls ++ [length (envs w)])
          (with_frames (λ fs, fs ++ [first_modal w])
             (with_envs (λ es, es ++ [first_modal w])
                (with_body (λ b, b ++ [length (nodes w)])
                   (with_nodes (λ ns, ns ++ [template]) w)))))).
Proof.
  unfold showEmailModal, getElementById_modal. simpl.
  by rewrite getElementById_inserted.
Qed.

Lemma keydown_showEmailModal (w : world) :
  keydown (showEmailModal w) = keydown w ++ [length (envs w)].
Proof. by rewrite showEmailModal_unfold. Qed.

Lemma envs_showEmailModal (w : world) :
  envs (showEmailModal w) = envs w ++ [first_modal w].
Proof. by rewrite showEmailModal_unfold. Qed.

Lemma body_showEmailModal (w : world) :
  body (showEmailModal w) = body w ++ [length (nodes w)].
Proof. by rewrite showEmailModal_unfold. Qed.

(** A second open finds the same first modal as the one before it. *)
Lemma first_modal_showEmailModal (w : world) :
  first_modal (showEmailModal w) = first_modal w.
Proof.
  unfold first_modal at 1. by rewrite body_showEmailModal, getElementById_inserted.
Qed.

(** *** Closing *)

Lemma keydown_closeModal (k : nat) (w : world) :
  keydown (closeModal k w) =
  if envs w !! k is Some _ then filter (λ k', k' ≠ k) (keydown w) else keydown w.
Proof. unfold closeModal. by destruct (envs w !! k). Qed.

Lemma envs_closeModal (k : nat) (w : world) : envs (closeModal k w) = envs w.
Proof. unfold closeModal. by destruct (envs w !! k). Qed.

Lemma closeModal_unbound (k : nat) (w : world) :
  envs w !! k = None → closeModal k w = w.
Proof. intros Hk. unfold closeModal. by rewrite Hk. Qed.

Lemma closeModal_twice (k m : nat) (w : world) :
  envs w !! k = Some m →
  closeModal k (closeModal k w) =
  with_timers (enqueue (now w + 300) (RemoveModal m)) (closeModal k w).
Proof.
  intros Hk. unfold closeModal at 1. rewrite envs_closeModal, Hk.
  unfold closeModal. rewrite Hk.
  unfold setTimeout, update_node, with_timers, with_nodes, with_keydown. simpl.
  f_equal.
  - rewrite list_alter_alter_eq. by apply list_alter_ext.
  - apply list_filter_filter_l. done.
Qed.

(** *** Timeouts *)

Lemma weight_pos (e : nat * timer) : 1 ≤ weight e.
Proof. unfold weight. destruct (e.2); lia. Qed.

Lemma work_cons (e : nat * timer) (q : list (nat * timer)) :
  work (e :: q) = weight e + work q.
Proof. done. Qed.

Lemma work_app (q1 q2 : list (nat * timer)) : work (q1 ++ q2) = work q1 + work q2.
Proof. apply sum_list_with_app. Qed.

Lemma work_enqueue (due : nat) (t : timer) (q : list (nat * timer)) :
  work (enqueue due t q) = weight (due, t) + work q.
Proof.
  induction q as [|[d t'] q IH]; simpl; [done|].
  case_decide; rewrite !work_cons; [rewrite IH|]; lia.
Qed.

Lemma work_nil_inv (q : list (nat * timer)) : work q = 0 → q = [].
Proof.
  destruct q as [|e q]; [done|]. rewrite work_cons.
  pose proof (weight_pos e). lia.
Qed.

Lemma work_registered (due : nat) (t : timer) (w : world) (q : list (nat * timer)) :
  work (registered t w q) < weight (due, t) + work q.
Proof.
  unfold registered, weight. destruct t as [m|k|m]; simpl; try lia.
  destruct (envs w !! k); [rewrite work_enqueue; unfold weight; simpl|]; lia.
Qed.

(** Firing a timeout on a world whose queue is [q]: the other parts change
    as they would on any queue, and the queue receives what was registered. *)
Lemma fire_with_timers (t : timer) (q : list (nat * timer)) (w : world) :
  fire t (with_timers (λ _, q) w) =
  with_timers (λ _, registered t w q) (fire t w).
Proof.
  destruct t as [m|k|m]; simpl.
  - done.
  - unfold closeModal. simpl. by destruct (envs w !! k).
  - by case_decide.
Qed.

Lemma run_next_with_timers (d : nat) (t : timer) (q : list (nat * timer)) (w : world) :
  run_next (with_timers (λ _, (d, t) :: q) w) =
  with_timers (λ _, registered t (with_now (now w `max` d) w) q)
    (fire t (with_now (now w `max` d) w)).
Proof. unfold run_next. simpl. by rewrite <- fire_with_timers. Qed.

Lemma with_timers_id (w : world) : with_timers (λ _, timers w) w = w.
Proof. by destruct w. Qed.

Lemma pending_work_run_next (w : world) :
  timers w ≠ [] → pending_work (run_next w) < pending_work w.
Proof.
  intros Hne. destruct (timers w) as [|[d t] q] eqn:Hq; [done|].
  assert (w = with_timers (λ _, (d, t) :: q) w) as Hw.
  { rewrite <- Hq. symmetry. apply with_timers_id. }
  rewrite Hw at 1. rewrite run_next_with_timers. unfold pending_work. rewrite Hq.
  change (work (registered t (with_now (now w `max` d) w) q) < work ((d, t) :: q)).
  rewrite work_cons. apply work_registered.
Qed.

Lemma drain_nil (n : nat) (w : world) : timers w = [] → drain n w = w.
Proof.
  revert w. induction n as [|n IH]; intros w Hnil; [done|].
  simpl. unfold run_next. rewrite Hnil. by apply IH.
Qed.

(** Fuel beyond the pending work changes nothing. *)
Lemma drain_stable (n n' : nat) (w : world) :
  pending_work w ≤ n → pending_work w ≤ n' → drain n w = drain n' w.
Proof.
  revert n' w. induction n as [|n IH]; intros n' w Hn Hn'.
  - assert (timers w = []) as Hnil by (apply work_nil_inv; unfold pending_work in Hn; lia).
    by rewrite !drain_nil.
  - destruct (decide (timers w = [])) as [Hnil|Hne]; [by rewrite !drain_nil|].
    pose proof (pending_work_run_next w Hne).
    destruct n' as [|n']; [lia|]. simpl. apply IH; lia.
Qed.

(** [settle] terminates with no timeout left. *)
Lemma timers_drain (n : nat) (w : world) :
  pending_work w ≤ n → timers (drain n w) = [].
Proof.
  revert w. induction n as [|n IH]; intros w Hn.
  - apply work_nil_inv. unfold pending_work in Hn. simpl. lia.
  - destruct (decide (timers w = [])) as [Hnil|Hne]; [by rewrite drain_nil|].
    pose proof (pending_work_run_next w Hne). simpl. apply IH. lia.
Qed.

Lemma timers_settle (w : world) : timers (settle w) = [].
Proof. by apply timers_drain. Qed.

(** *** One timeout registered twice *)

Lemma elem_of_enqueue (x : nat * timer) (due : nat) (t : timer) (q : list (nat * timer)) :
  x ∈ enqueue due t q ↔ x = (due, t) ∨ x ∈ q.
Proof.
  induction q as [|[d t'] q IH]; simpl.
  - rewrite list_elem_of_singleton, elem_of_nil. tauto.
  - case_decide; rewrite !elem_of_cons; [rewrite IH|]; tauto.
Qed.

(** Registering the same timeout twice in a row puts the two entries next to
    each other in the queue. *)
Lemma enqueue_again (due : nat) (t : timer) (q : list (nat * timer)) :
  ∃ xs ys, enqueue due t q = xs ++ (due, t) :: ys ∧
           enqueue due t (enqueue due t q) = xs ++ (due, t) :: (due, t) :: ys.
Proof.
  induction q as [|[d t'] q IH]; simpl.
  - exists [], []. simpl. by rewrite decide_True.
  - case_decide as Hd.
    + destruct IH as (xs & ys & H1 & H2). exists ((d, t') :: xs), ys.
      simpl. rewrite decide_True by done. by rewrite H2, H1.
    + exists [], ((d, t') :: q). simpl.
      rewrite decide_True by done. by rewrite decide_False.
Qed.

(** A later registration never separates two such entries. *)
Lemma enqueue_twin (due : nat) (t : timer) (e : nat * timer) (xs ys : list (nat * timer)) :
  ∃ xs' ys', enqueue due t (xs ++ e :: e :: ys) = xs' ++ e :: e :: ys' ∧
             enqueue due t (xs ++ e :: ys) = xs' ++ e :: ys'.
Proof.
  induction xs as [|[d t'] xs IH]; simpl.
  - destruct e as [d a]. case_decide.
    + by exists [], (enqueue due t ys).
    + by exists [(due, t)], ys.
  - case_decide.
    + destruct IH as (xs' & ys' & -> & ->). by exists ((d, t') :: xs'), ys'.
    + by exists ((due, t) :: (d, t') :: xs), ys.
Qed.

Lemma registered_twin (t : timer) (w : world) (e : nat * timer) (xs ys : list (nat * timer)) :
  ∃ xs' ys', registered t w (xs ++ e :: e :: ys) = xs' ++ e :: e :: ys' ∧
             registered t w (xs ++ e :: ys) = xs' ++ e :: ys'.
Proof.
  destruct t as [m|k|m]; simpl; eauto.
  destruct (envs w !! k); eauto using enqueue_twin.
Qed.

Lemma fire_RemoveModal_twice (m d : nat) (w : world) :
  fire (RemoveModal m)
    (with_now (now (fire (RemoveModal m) (with_now (now w `max` d) w)) `max` d)
       (fire (RemoveModal m) (with_now (now w `max` d) w))) =
  fire (RemoveModal m) (with_now (now w `max` d) w).
Proof.
  simpl. unfold with_body, with_now. simpl. f_equal.
  - by apply list_filter_filter_l.
  - lia.
Qed.

(** Two adjacent entries that remove the same modal settle to the same state
    as one of them. *)
Lemma drain_twin (n2 n1 : nat) (xs ys : list (nat * timer)) (d m : nat) (w : world) :
  work (xs ++ (d, RemoveModal m) :: ys) ≤ n2 →
  work (xs ++ (d, RemoveModal m) :: (d, RemoveModal m) :: ys) ≤ n1 →
  drain n1 (with_timers (λ _, xs ++ (d, RemoveModal m) :: (d, RemoveModal m) :: ys) w) =
  drain n2 (with_timers (λ _, xs ++ (d, RemoveModal m) :: ys) w).
Proof.
  revert n1 xs ys w. induction n2 as [|n2 IH]; intros n1 xs ys w H2 H1;
    rewrite work_app, !work_cons in *;
    change (weight (d, RemoveModal m)) with 1 in *; [lia|].
  destruct n1 as [|n1]; [lia|].
  destruct xs as [|[d' t'] xs].
  - destruct n1 as [|n1]; [simpl in H1; lia|].
    simpl app. simpl drain. rewrite !run_next_with_timers.
    change (registered (RemoveModal m) ?w0 ?q) with q.
    rewrite run_next_with_timers.
    change (registered (RemoveModal m) ?w0 ?q) with q.
    rewrite fire_RemoveModal_twice.
    apply drain_stable; unfold pending_work; simpl in *; lia.
  - simpl app. simpl drain. rewrite !run_next_with_timers.
    set (w' := with_now (now w `max` d') w).
    destruct (registered_twin t' w' (d, RemoveModal m) xs ys) as (xs' & ys' & E1 & E2).
    pose proof (work_registered d' t' w' (xs ++ (d, RemoveModal m) :: ys)) as B2.
    pose proof (work_registered d' t' w'
                  (xs ++ (d, RemoveModal m) :: (d, RemoveModal m) :: ys)) as B1.
    rewrite E1 in *. rewrite E2 in *.
    rewrite !work_app, !work_cons in B1, B2.
    change (weight (d, RemoveModal m)) with 1 in *.
    rewrite work_cons in H1, H2. pose proof (weight_pos (d', t')).
    apply IH; rewrite work_app, !work_cons;
      change (weight (d, RemoveModal m)) with 1; lia.
Qed.

Lemma timers_closeModal (k : nat) (w : world) :
  timers (closeModal k w) = registered (CloseModal k) w (timers w).
Proof. unfold closeModal. simpl. by destruct (envs w !! k). Qed.

(** Closing twice, then letting every timeout fire, ends in the same state as
    closing once. *)
Lemma settle_closeModal_twice (k : nat) (w : world) :
  settle (closeModal k (closeModal k w)) = settle (closeModal k w).
Proof.
  destruct (envs w !! k) as [m|] eqn:Hk.
  - rewrite (closeModal_twice k m w Hk).
    set (w1 := closeModal k w).
    assert (Hq : timers w1 = enqueue (now w + 300) (RemoveModal m) (timers w)).
    { unfold w1. rewrite timers_closeModal. simpl. by rewrite Hk. }
    destruct (enqueue_again (now w + 300) (RemoveModal m) (timers w))
      as (xs & ys & E1 & E2).
    assert (H1 : with_timers (enqueue (now w + 300) (RemoveModal m)) w1 =
                 with_timers (λ _, xs ++ (now w + 300, RemoveModal m) ::
                                   (now w + 300, RemoveModal m) :: ys) w1).
    { unfold with_timers. by rewrite Hq, E2. }
    assert (H2 : w1 = with_timers (λ _, xs ++ (now w + 300, RemoveModal m) :: ys) w1).
    { rewrite <- E1, <- Hq. symmetry. apply with_timers_id. }
    rewrite H1. unfold settle, pending_work. rewrite H2 at 3 4.
    apply drain_twin; exact (Nat.le_refl _).
  - by rewrite !(closeModal_unbound k w Hk).
Qed.

(** *** The node leaves the document *)

Lemma elem_of_registered (x : nat * timer) (t : timer) (w : world) (q : list (nat * timer)) :
  x ∈ q → x ∈ registered t w q.
Proof.
  intros Hx. destruct t as [m|k|m]; simpl; try done.
  destruct (envs w !! k); [|done]. apply elem_of_enqueue. by right.
Qed.

Lemma body_fire (x : nat) (t : timer) (w : world) :
  x ∈ body (fire t w) → x ∈ body w.
Proof.
  destruct t as [m|k|m]; simpl.
  - rewrite list_elem_of_filter. tauto.
  - unfold closeModal. by destruct (envs w !! k).
  - by case_decide.
Qed.

(** A pending removal is carried out by the time the timeouts have fired, and
    no timeout puts a node back. *)
Lemma drain_removes (m n : nat) (w : world) :
  pending_work w ≤ n →
  (∃ d, (d, RemoveModal m) ∈ timers w) ∨ m ∉ body w →
  m ∉ body (drain n w).
Proof.
  revert w. induction n as [|n IH]; intros w Hn Hinv.
  - assert (timers w = []) as Hnil by (apply work_nil_inv; unfold pending_work in Hn; lia).
    rewrite Hnil in Hinv. destruct Hinv as [[d Hd]|H]; [by apply elem_of_nil in Hd | done].
  - destruct (timers w) as [|[d' t'] q] eqn:Hq.
    + rewrite drain_nil by done.
      destruct Hinv as [[d Hd]|H]; [by apply elem_of_nil in Hd | done].
    + assert (Hne : timers w ≠ []) by (by rewrite Hq).
      pose proof (pending_work_run_next w Hne).
      assert (w = with_timers (λ _, (d', t') :: q) w) as Hw.
      { rewrite <- Hq. symmetry. apply with_timers_id. }
      simpl. apply IH; [lia|].
      rewrite Hw, run_next_with_timers. simpl.
      set (w' := with_now (now w `max` d') w).
      destruct Hinv as [[d Hd]|Hout].
      * apply elem_of_cons in Hd as [[= <- <-]|Hd].
        -- right. simpl. rewrite list_elem_of_filter. tauto.
        -- left. exists d. by apply elem_of_registered.
      * right. intros Hin. apply body_fire in Hin. done.
Qed.

(** *** Reachable states *)

Lemma well_formed_initial : well_formed initial.
Proof. repeat split; apply Forall_nil_2. Qed.

Lemma first_modal_bound (w : world) :
  well_formed w → first_modal w ≤ length (nodes w).
Proof.
  intros (_ & _ & Hbody). unfold first_modal.
  destruct (body w) as [|m b]; simpl; [done|].
  apply Forall_cons in Hbody as [Hm _]. lia.
Qed.

Lemma well_formed_showEmailModal (w : world) :
  well_formed w → well_formed (showEmailModal w).
Proof.
  intros Hwf. pose proof (first_modal_bound w Hwf) as Hfirst.
  destruct Hwf as (Henvs & Hkeys & Hbody).
  rewrite showEmailModal_unfold. unfold well_formed. simpl.
  rewrite length_alter, !length_app. simpl.
  repeat split; apply Forall_app; split;
    try (eapply Forall_impl; [eassumption|]; simpl; intros; lia);
    apply Forall_singleton; lia.
Qed.

Lemma Forall_filter_keep {A} (P Q : A → Prop) `{∀ x, Decision (Q x)} (l : list A) :
  Forall P l → Forall P (filter Q l).
Proof.
  rewrite !Forall_forall. intros HP x Hx.
  apply list_elem_of_filter in Hx as [_ Hx]. by apply HP.
Qed.

Lemma well_formed_closeModal (k : nat) (w : world) :
  well_formed w → well_formed (closeModal k w).
Proof.
  intros (Henvs & Hkeys & Hbody). unfold closeModal.
  destruct (envs w !! k) as [m|]; [|done].
  unfold well_formed. simpl. rewrite length_alter.
  repeat split; try done. by apply Forall_filter_keep.
Qed.

Lemma well_formed_fire (t : timer) (w : world) :
  well_formed w → well_formed (fire t w).
Proof.
  intros Hwf. destruct t as [m|k|m]; simpl.
  - destruct Hwf as (Henvs & Hkeys & Hbody).
    repeat split; try done. by apply Forall_filter_keep.
  - by apply well_formed_closeModal.
  - by case_decide.
Qed.

Lemma well_formed_run_next (w : world) : well_formed w → well_formed (run_next w).
Proof.
  intros Hwf. unfold run_next. destruct (timers w) as [|[d t] q]; [done|].
  by apply well_formed_fire.
Qed.

Lemma well_formed_settle (w : world) : well_formed w → well_formed (settle w).
Proof.
  unfold settle. generalize (pending_work w) as n. intros n. revert w.
  induction n as [|n IH]; intros w Hwf; [done|].
  simpl. by apply IH, well_formed_run_next.
Qed.

Lemma well_formed_update_node (m : nat) (f : modal_node → modal_node) (w : world) :
  well_formed w → well_formed (update_node m f w).
Proof.
  intros Hwf. unfold well_formed, update_node. simpl. by rewrite length_alter.
Qed.

(** The submit handler keeps the page well formed, before and after its
    call. *)
Lemma well_formed_submit (doc : document) (chain : list (path * element))
    (k : nat) (w : world) :
  well_formed w →
  match submit doc chain k w with
  | Returned w' => well_formed w'
  | Awaiting w' c =>
      well_formed w' ∧ envs w' !! k = Some (c_modal c) ∧ c_modal c < length (nodes w')
  end.
Proof.
  intros Hwf. unfold submit.
  destruct (envs w !! k) as [modal|] eqn:Hk; [|done].
  destruct (nodes w !! modal) as [form|] eqn:Hm; [|done].
  destruct (String.eqb _ "" || _); [by apply well_formed_update_node|].
  destruct (no_variant _); [by apply well_formed_update_node|].
  split; [by apply (well_formed_update_node modal _ w)|].
  split; [done|]. simpl. rewrite length_alter. by eapply lookup_lt_Some.
Qed.

Lemma well_formed_resume (c : continuation) (o : fetch_outcome) (w : world) :
  well_formed w → well_formed (resume c o w).
Proof.
  intros Hwf. unfold resume. apply well_formed_update_node.
  destruct (submitNotification o); unfold showMessage.
  - apply (well_formed_update_node (c_modal c) _
             (update_node (c_modal c) _ w)).
    by apply well_formed_update_node.
  - by apply well_formed_update_node.
Qed.

(** In a well-formed page every closure that a registered keydown listener
    belongs to holds a node that exists. *)
Lemma well_formed_listener_bound (w : world) (k : nat) :
  well_formed w → k ∈ keydown w →
  ∃ m, envs w !! k = Some m ∧ m < length (nodes w).
Proof.
  intros (Henvs & Hkeys & _) Hk.
  rewrite Forall_forall in Hkeys. apply Hkeys in Hk.
  destruct (lookup_lt_is_Some_2 _ _ Hk) as [m Hm]. exists m. split; [done|].
  rewrite Forall_forall in Henvs. apply Henvs. by eapply list_elem_of_lookup_2.
Qed.

(** *** Keydown listeners *)

Lemma filter_other_bound (k : nat) (ls : list nat) :
  Forall (λ i, i < k) ls → filter (λ i, i ≠ k) ls = ls.
Proof.
  induction 1 as [|i ls Hi _ IH]; [done|].
  rewrite filter_cons, decide_True by lia. by rewrite IH.
Qed.

(** C8, as stated, fails: after two opens in succession the document holds
    two keydown listeners, and both close the same modal node. *)
Lemma two_opens_conflicting_keydown :
  conflicting (showEmailModal (showEmailModal initial)) 0 1.
Proof.
  unfold conflicting. split; [lia|].
  change (keydown (showEmailModal (showEmailModal initial))) with [0; 1].
  split; [apply list_elem_of_here|].
  split; [apply list_elem_of_further, list_elem_of_here|].
  exists 0. split; reflexivity.
Qed.

(** What the two listeners do: one Escape key runs both, both close the
    first node, and the second node, which no closure holds, stays in the
    document after every timeout has fired. *)
Lemma escape_after_two_opens :
  let w := dispatch_keydown "Escape" (showEmailModal (showEmailModal initial)) in
  keydown w = [] ∧
  timers w = [(100, FocusEmail 0); (100, FocusEmail 0);
              (300, RemoveModal 0); (300, RemoveModal 0)] ∧
  body (settle w) = [1] ∧
  nodes (settle w) !! 1 = Some template.
Proof. vm_compute. done. Qed.

(** A key other than Escape closes nothing. *)
Lemma handleKeydown_other_key (k : nat) (key : string) (w : world) :
  key ≠ "Escape" → handleKeydown k key w = w.
Proof.
  intros Hkey. unfold handleKeydown.
  by destruct (String.eqb_spec key "Escape").
Qed.

(** C8, amended.  Each open installs one new document-level keydown listener
    of its own, so two opens in succession leave two listeners active, both
    bound to the first modal node of the document; each close removes exactly
    the keydown listener that the corresponding open installed, and leaves
    every other listener registered. *)
Theorem keydown_listener_per_open (w : world) :
  let k := length (envs w) in
  let twice := showEmailModal (showEmailModal w) in
  keydown (showEmailModal w) = keydown w ++ [k] ∧
  (keydown twice = keydown w ++ [k; S k] ∧
   envs twice !! k = Some (first_modal w) ∧
   envs twice !! S k = Some (first_modal w)) ∧
  (∀ j i, j < length (envs w) →
          i ∈ keydown (closeModal j w) ↔ i ∈ keydown w ∧ i ≠ j) ∧
  (Forall (λ i, i < k) (keydown w) →
   keydown (closeModal k (showEmailModal w)) = keydown w).
Proof.
  intros k twice. split; [apply keydown_showEmailModal|]. split; [|split].
  - unfold twice.
    rewrite !keydown_showEmailModal, !envs_showEmailModal, first_modal_showEmailModal.
    rewrite length_app, <- !app_assoc. simpl. fold k.
    replace (k + 1) with (S k) by lia. split; [done|]. split.
    + by apply list_lookup_middle.
    + change (envs w ++ [first_modal w; first_modal w])
        with (envs w ++ [first_modal w] ++ [first_modal w]).
      rewrite app_assoc. apply list_lookup_middle.
      rewrite length_app. simpl. fold k. lia.
  - intros j i Hj. rewrite keydown_closeModal.
    destruct (lookup_lt_is_Some_2 _ _ Hj) as [m ->].
    rewrite list_elem_of_filter. tauto.
  - intros Hall. rewrite keydown_closeModal, envs_showEmailModal.
    rewrite (list_lookup_middle (envs w) [] (first_modal w) k) by done.
    rewrite keydown_showEmailModal, filter_app, filter_other_bound by done.
    rewrite filter_cons, decide_False by (intros H; by apply H).
    by rewrite filter_nil, app_nil_r.
Qed.

(** Opening once and closing with the closure of that open leaves no
    keydown listener behind. *)
Lemma keydown_listener_per_open_initial :
  keydown (closeModal 0 (showEmailModal initial)) = keydown initial.
Proof.
  apply (proj2 (proj2 (proj2 (keydown_listener_per_open initial)))).
  apply Forall_nil_2.
Defined.

(** *** Closing twice *)

(** C10.  Calling [closeModal] a second time on the same modal changes
    nothing that can be observed: the listeners, the nodes and the document
    are those left by the first call, the only difference being a second
    pending removal of the same node, and once the timeouts have fired the
    two states are equal.  The keydown listener is gone, the visibility class
    is off, and the node has left the document.  [closeModal] is total: no
    call of it throws. *)
Theorem closeModal_idempotent (k : nat) (w : world) :
  observable (closeModal k (closeModal k w)) = observable (closeModal k w) ∧
  settle (closeModal k (closeModal k w)) = settle (closeModal k w) ∧
  ∀ m, envs w !! k = Some m →
       m < length (nodes w) →
       timers (closeModal k (closeModal k w)) =
         enqueue (now w + 300) (RemoveModal m) (timers (closeModal k w)) ∧
       (k ∉ keydown (closeModal k (closeModal k w))) ∧
       visible <$> nodes (closeModal k (closeModal k w)) !! m = Some false ∧
       m ∉ body (settle (closeModal k (closeModal k w))).
Proof.
  split; [|split; [apply settle_closeModal_twice|]].
  - destruct (envs w !! k) as [m|] eqn:Hk.
    + by rewrite (closeModal_twice k m w Hk).
    + by rewrite !(closeModal_unbound k w Hk).
  - intros m Hk Hm. rewrite settle_closeModal_twice.
    rewrite (closeModal_twice k m w Hk). split; [done|]. split; [|split].
    + change (k ∉ keydown (closeModal k w)). rewrite keydown_closeModal, Hk.
      rewrite list_elem_of_filter. tauto.
    + change (visible <$> nodes (closeModal k w) !! m = Some false).
      unfold closeModal. rewrite Hk.
      change (visible <$> alter (set_visible false) m (nodes w) !! m = Some false).
      rewrite list_lookup_alter_eq.
      destruct (lookup_lt_is_Some_2 _ _ Hm) as [n ->]. done.
    + apply drain_removes; [done|]. left. exists (now w + 300).
      rewrite timers_closeModal. simpl. rewrite Hk.
      apply elem_of_enqueue. by left.
Qed.

(** On the sample page: after a click on the backdrop the keydown listener
    is gone, so an Escape key changes nothing at all; a click on the cancel
    button runs [closeModal] a second time and only registers the removal
    once more. *)
Lemma backdrop_then_escape_or_cancel :
  let closed := click backdrop_click 0 Samples.open_modal in
  dispatch_keydown "Escape" closed = closed ∧
  observable (click cancel_click 0 closed) = observable closed ∧
  timers (click cancel_click 0 closed) =
    [(100, FocusEmail 0); (300, RemoveModal 0); (300, RemoveModal 0)] ∧
  settle (click cancel_click 0 closed) = settle closed.
Proof. vm_compute. done. Qed.

(** The modal of the sample page, closed twice. *)
Lemma closeModal_idempotent_open_modal :
  let w := Samples.open_modal in
  timers (closeModal 0 (closeModal 0 w)) =
    enqueue (now w + 300) (RemoveModal 0) (timers (closeModal 0 w)) ∧
  (0 ∉ keydown (closeModal 0 (closeModal 0 w))) ∧
  visible <$> nodes (closeModal 0 (closeModal 0 w)) !! 0 = Some false ∧
  0 ∉ body (settle (closeModal 0 (closeModal 0 w))).
Proof.
  refine (proj2 (proj2 (closeModal_idempotent 0 Samples.open_modal)) 0 eq_refl _).
  vm_compute. lia.
Defined.

End ModalFacts.

(** ** More on the submit handler *)

Module SubmitFlowFacts.
Import Js Dom Modal Submission SubmissionFacts.

(** *** White space and the validation *)

Lemma includes_char_nil (c : Ascii.ascii) : includes "" (String c "") = false.
Proof. done. Qed.

Lemma includes_char_cons (c b : Ascii.ascii) (s : string) :
  includes (String b s) (String c "") =
  if Ascii.ascii_dec c b then true else includes s (String c "").
Proof.
  rewrite JsFacts.includes_unfold. simpl.
  destruct (Ascii.ascii_dec c b); [by destruct s | done].
Qed.

Lemma includes_char_trimStart (c : Ascii.ascii) (s : string) :
  is_white_space c = false →
  includes (trimStart s) (String c "") = includes s (String c "").
Proof.
  intros Hc. induction s as [|b s IH]; [done|].
  cbn [trimStart]. destruct (is_white_space b) eqn:Hb; [|done].
  rewrite IH, includes_char_cons.
  destruct (Ascii.ascii_dec c b) as [->|]; [congruence | done].
Qed.

Lemma includes_char_trimEnd (c : Ascii.ascii) (s : string) :
  is_white_space c = false →
  includes (trimEnd s) (String c "") = includes s (String c "").
Proof.
  intros Hc. induction s as [|b s IH]; [done|].
  cbn [trimEnd]. rewrite (includes_char_cons c b s), <- IH.
  destruct (trimEnd s) as [|b' s'].
  - destruct (is_white_space b) eqn:Hb.
    + destruct (Ascii.ascii_dec c b) as [->|]; [congruence | done].
    + by rewrite includes_char_cons.
  - by rewrite includes_char_cons.
Qed.

(** Trimming neither adds nor removes an [@]. *)
Lemma includes_at_trim (s : string) : includes (trim s) "@" = includes s "@".
Proof.
  unfold trim.
  rewrite includes_char_trimEnd by done. by rewrite includes_char_trimStart.
Qed.

Lemma includes_non_empty (s : string) (c : Ascii.ascii) :
  includes s (String c "") = true → s ≠ "".
Proof. by destruct s. Qed.

(** When the handler stops at the validation. *)
Lemma submit_stops_at_validation
    (doc : document) (chain : list (path * element))
    (k modal : nat) (form : modal_node) (w : world) :
  envs w !! k = Some modal →
  nodes w !! modal = Some form →
  submit doc chain k w = Returned (showMessage modal validation_message "error" w) ↔
  String.eqb (trim (email_value form)) "" ||
    negb (includes (trim (email_value form)) "@") = true.
Proof.
  intros Hk Hm.
  assert (Hlt : modal < length (nodes w)) by (by eapply lookup_lt_Some).
  unfold submit. rewrite Hk, Hm.
  destruct (String.eqb _ "" || _); [done|]. split; [|done]. intros H. exfalso.
  destruct (no_variant (Variant.getVariantId doc chain)); [|discriminate].
  apply (f_equal (λ r, match r with
                       | Returned w0 => shown_message modal w0
                       | Awaiting _ _ => None
                       end)) in H.
  rewrite !shown_message_showMessage in H by done. discriminate.
Qed.

(** X1.  White space around the address and the test for an empty address
    never decide the validation: the handler stops with the validation
    message exactly when the value of the email field, as typed, contains no
    [@]. *)
Theorem submit_rejects_iff_no_at
    (doc : document) (chain : list (path * element))
    (k modal : nat) (form : modal_node) (w : world) :
  envs w !! k = Some modal →
  nodes w !! modal = Some form →
  submit doc chain k w = Returned (showMessage modal validation_message "error" w) ↔
  ¬ contains (email_value form) "@".
Proof.
  intros Hk Hm. rewrite (submit_stops_at_validation doc chain k modal form w Hk Hm).
  rewrite <- includes_contains, includes_at_trim.
  destruct (includes (email_value form) "@") eqn:Hat.
  - rewrite <- includes_at_trim in Hat. apply includes_non_empty in Hat.
    apply JsFacts.eqb_empty_false in Hat. rewrite Hat. simpl. split; [done|].
    intros H. by destruct H.
  - rewrite orb_true_r. split; [|done]. intros _. done.
Qed.

(** An address made of blanks around a lone [@] passes the validation. *)
Lemma submit_rejects_iff_no_at_blank :
  submit Samples.anonymous_document (Samples.chain_of Samples.bare_page [0; 0]) 0
    (type_email 0 "  @ " (showEmailModal initial)) =
    Returned (showMessage 0 validation_message "error"
                (type_email 0 "  @ " (showEmailModal initial))) ↔
  ¬ contains "  @ " "@".
Proof.
  exact (submit_rejects_iff_no_at Samples.anonymous_document
           (Samples.chain_of Samples.bare_page [0; 0]) 0 0
           (set_email "  @ " (add_listeners 0 template))
           (type_email 0 "  @ " (showEmailModal initial)) eq_refl eq_refl).
Defined.

(** *** The request *)

(** X2.  A run of the submit handler makes at most one call of [fetch]: none
    when it returns early, and exactly one when it reaches its [await], a
    POST of JSON to the fixed endpoint carrying the non-empty variant id that
    [getVariantId] returned and the trimmed address.  Resuming the handler
    never makes another call, however the first one ended. *)
Theorem submit_sends_one_request
    (doc : document) (chain : list (path * element)) (k : nat) (w : world) :
  match submit doc chain k w with
  | Returned w' => requests w' = requests w
  | Awaiting w1 c =>
      ∃ form v,
        nodes w !! c_modal c = Some form ∧
        Variant.getVariantId doc chain = Some v ∧
        v ≠ "" ∧
        requests w1 = requests w ++
          [{| req_url := endpoint; req_method := "POST";
              req_content_type := "application/json";
              req_variantId := v; req_email := trim (email_value form) |}]
  end ∧
  ∀ (c : continuation) (o : fetch_outcome) (w' : world),
    requests (resume c o w') = requests w'.
Proof.
  split.
  - unfold submit.
    destruct (envs w !! k) as [modal|] eqn:Hk; [|done].
    destruct (nodes w !! modal) as [form|] eqn:Hm; [|done].
    destruct (String.eqb _ "" || _); [done|].
    destruct (Variant.getVariantId doc chain) as [v|] eqn:Hv; simpl; [|done].
    destruct (String.eqb_spec v ""); [done|].
    exists form, v. done.
  - intros c o w'. unfold resume. by destruct (submitNotification o).
Qed.

(** *** How the promise of [submitNotification] settles *)

(** X3.  The promise of [submitNotification] is fulfilled exactly when the
    response has a success status and its body parses as JSON, and then with
    the parsed value; in every other case it is rejected. *)
Theorem submitNotification_fulfilled_iff (o : fetch_outcome) (v : jsval) :
  submitNotification o = Normal v ↔
  ∃ status, response_ok status = true ∧ o = Response status (JsonValue v).
Proof.
  split.
  - destruct o as [e|status body].
    + unfold submitNotification.
      by destruct (String.eqb (err_name e) "TypeError" && includes (err_message e) "fetch").
    + destruct (response_ok status) eqn:Hok.
      * rewrite submitNotification_ok by done.
        destruct body as [v'|msg]; [|done]. intros [= ->]. eauto.
      * by rewrite submitNotification_server_error.
  - intros (status & Hok & ->). by rewrite submitNotification_ok.
Qed.

(** X4.  For a response without a success status the promise is rejected
    with what [throw new Error(v)] throws, where [v] is the [message] of the
    JSON body when that is truthy, else its [error] when that is truthy,
    else [HTTP] followed by the status; a body that does not parse, or that
    is not an object (null included), gives the status text.  What is thrown
    is an [Error] whose message is [v] converted to a string: a string as it
    is, a plain object without a [toString] of its own as
    [[object Object]]; when [v] is an object with an own [toString]
    property, the conversion fails and its TypeError is thrown instead. *)
Theorem server_error_message (status : N) :
  response_ok status = false →
  let http := new_Error ("HTTP " +:+ pretty status) in
  (∀ msg, submitNotification (Response status (JsonSyntaxError msg)) = Throw http) ∧
  (∀ v, (∀ fields, v ≠ JObj fields) →
        submitNotification (Response status (JsonValue v)) = Throw http) ∧
  (∀ fields m,
     lookup_field "message" fields = Some m → truthy m = true →
     submitNotification (Response status (JsonValue (JObj fields))) = Throw (raised m)) ∧
  (∀ fields e,
     truthy (default JUndefined (lookup_field "message" fields)) = false →
     lookup_field "error" fields = Some e → truthy e = true →
     submitNotification (Response status (JsonValue (JObj fields))) = Throw (raised e)) ∧
  (∀ fields,
     truthy (default JUndefined (lookup_field "message" fields)) = false →
     truthy (default JUndefined (lookup_field "error" fields)) = false →
     submitNotification (Response status (JsonValue (JObj fields))) = Throw http) ∧
  (∀ v, v ≠ JUndefined →
        (∃ text, to_string v = Normal text ∧ raised v = new_Error text) ∨
        (to_string v = Throw cannot_convert ∧ raised v = cannot_convert)) ∧
  (∀ s, raised (JStr s) = new_Error s) ∧
  (∀ own,
     raised (JObj own) =
     match lookup_field "toString" own with
     | Some _ => cannot_convert
     | None => new_Error "[object Object]"
     end).
Proof.
  intros Hok http. split; [|split; [|split; [|split; [|split; [|split; [|split]]]]]].
  - intros msg. by rewrite submitNotification_server_error.
  - intros v Hv. rewrite submitNotification_server_error by done.
    destruct v as [| | | | |fields|]; try done. by destruct (Hv fields).
  - intros fields m Hm Ht. rewrite submitNotification_server_error by done.
    unfold server_error_value, js_or. by rewrite Hm; simpl; rewrite Ht.
  - intros fields e Hm He Ht. rewrite submitNotification_server_error by done.
    unfold server_error_value, js_or. by rewrite Hm, He; simpl; rewrite Ht.
  - intros fields Hm He. rewrite submitNotification_server_error by done.
    unfold server_error_value, js_or. by rewrite Hm, He.
  - apply JsFacts.raised_converts.
  - done.
  - intros own. unfold raised. simpl. by destruct (lookup_field "toString" own).
Qed.

(** A 404 whose body says why. *)
Lemma server_error_message_not_found :
  submitNotification
    (Response 404 (JsonValue (JObj [("error", JStr "Unknown variant")]))) =
  Throw (new_Error "Unknown variant").
Proof.
  exact (proj1 (proj2 (proj2 (proj2 (server_error_message 404 eq_refl))))
           [("error", JStr "Unknown variant")] (JStr "Unknown variant")
           eq_refl eq_refl eq_refl).
Defined.

(** Messages that are not strings: an object with a [toString] of its own
    cannot be converted and the handler shows the text of the TypeError; a
    large number is written with an exponent; an empty array converts to the
    empty string, for which the handler shows its general apology. *)
Lemma messages_that_are_not_strings :
  let shown (message : jsval) :=
    shown_message 0
      (resume Samples.in_flight.2
         (Response 500 (JsonValue (JObj [("message", message)]))) Samples.in_flight.1) in
  shown (JObj [("toString", JNum 0)]) =
    Some ("Cannot convert object to primitive value", error_class) ∧
  shown (JObj [("code", JNum 7)]) = Some ("[object Object]", error_class) ∧
  shown (JNum (10 ^ 21)) = Some ("1e+21", error_class) ∧
  shown (JNum (10 ^ 20)) = Some ("100000000000000000000", error_class) ∧
  shown (JNum (2 ^ 64)) = Some ("18446744073709552000", error_class) ∧
  shown (JArr []) = Some (fallback_message, error_class) ∧
  shown (JArr [JStr "a"; JNull; JNum 1]) = Some ("a,,1", error_class).
Proof. vm_compute. done. Qed.

(** *** After a failure *)

(** X5.  When the call fails, in whatever way, the handler shows a text that
    is never empty, with the error class, and leaves the form ready for
    another attempt: the address stays in the field, the submit button is
    enabled, the modal keeps its place in the document, its listeners and its
    visibility, and no close is scheduled. *)
Theorem rejected_leaves_form_usable
    (c : continuation) (o : fetch_outcome) (e : js_error) (w : world) (n : modal_node) :
  nodes w !! c_modal c = Some n →
  submitNotification o = Throw e →
  ∃ text n2,
    shown_message (c_modal c) (resume c o w) = Some (text, error_class) ∧
    text ≠ "" ∧
    nodes (resume c o w) !! c_modal c = Some n2 ∧
    email_value n2 = email_value n ∧
    submit_disabled n2 = false ∧
    visible n2 = visible n ∧
    (close_click n2, cancel_click n2, backdrop_click n2, form_submit n2) =
      (close_click n, cancel_click n, backdrop_click n, form_submit n) ∧
    (body (resume c o w), keydown (resume c o w), timers (resume c o w)) =
      (body w, keydown w, timers w).
Proof.
  intros Hn He.
  assert (Hlt : c_modal c < length (nodes w)) by (by eapply lookup_lt_Some).
  destruct (resume_rejected c o e w Hlt He) as (Hshown & _ & _).
  eexists _, _. split; [exact Hshown|].
  split; [by destruct (String.eqb_spec (err_message e) "")|].
  unfold resume. rewrite He, lookup_update_node, lookup_showMessage, Hn.
  done.
Qed.

(** The sample submission, answered with a 500 that has no body. *)
Lemma rejected_leaves_form_usable_in_flight :
  ∃ text n2,
    shown_message 0
      (resume Samples.in_flight.2 (Response 500 (JsonSyntaxError "Unexpected end of JSON input"))
         Samples.in_flight.1) = Some (text, error_class) ∧
    text ≠ "" ∧
    nodes (resume Samples.in_flight.2
             (Response 500 (JsonSyntaxError "Unexpected end of JSON input"))
             Samples.in_flight.1) !! 0 = Some n2 ∧
    email_value n2 = "shopper@example.com" ∧
    submit_disabled n2 = false.
Proof.
  destruct (rejected_leaves_form_usable Samples.in_flight.2
              (Response 500 (JsonSyntaxError "Unexpected end of JSON input"))
              (new_Error "HTTP 500") Samples.in_flight.1
              (set_submit true "Submitting..."
                 (set_email "shopper@example.com" (add_listeners 0 template)))
              eq_refl eq_refl)
    as (text & n2 & H1 & H2 & H3 & H4 & H5 & _).
  exists text, n2. done.
Defined.

End SubmitFlowFacts.

(** ** What every run of the page keeps *)

Module PageFacts.
Import Js Dom Watcher Modal Submission Page SubmissionFacts ModalFacts.

Lemma keeps_refl (w : world) : keeps w w.
Proof. split; [exists []; by rewrite app_nil_r | done]. Qed.

Lemma keeps_trans (w1 w2 w3 : world) : keeps w1 w2 → keeps w2 w3 → keeps w1 w3.
Proof.
  intros [[m1 H1] L1] [[m2 H2] L2]. split; [|lia].
  exists (m1 ++ m2). by rewrite H2, H1, app_assoc.
Qed.

Lemma keeps_same (w w' : world) :
  envs w' = envs w → requests w' = requests w → keeps w w'.
Proof. intros He Hr. split; [exists []; by rewrite app_nil_r | by rewrite Hr]. Qed.

Lemma keeps_lookup (w w' : world) (k m : nat) :
  keeps w w' → envs w !! k = Some m → envs w' !! k = Some m.
Proof. intros [[more ->] _] Hk. by apply lookup_app_l_Some. Qed.

Lemma sound_ext (w w' : world) :
  nodes w' = nodes w → body w' = body w → envs w' = envs w → keydown w' = keydown w →
  sound w → sound w'.
Proof.
  intros Hn Hb He Hk (Hwf & Hnd & Hl).
  unfold sound, well_formed, listeners_bound in *. by rewrite Hn, Hb, He, Hk.
Qed.

(** The writes to a node leave its listeners alone. *)
Lemma sound_update_node (m : nat) (f : modal_node → modal_node) (w : world) :
  (∀ n, node_listeners (f n) = node_listeners n) →
  sound w → sound (update_node m f w).
Proof.
  intros Hf (Hwf & Hnd & Hl). split; [by apply well_formed_update_node|].
  split; [done|]. intros m' n' k Hn' Hk. simpl.
  destruct (decide (m = m')) as [<-|Hne].
  - rewrite lookup_update_node in Hn'.
    destruct (nodes w !! m) as [n|] eqn:Hn; [|done].
    injection Hn' as <-. rewrite Hf in Hk. by eapply Hl.
  - rewrite lookup_update_node_ne in Hn' by done. by eapply Hl.
Qed.

Lemma sound_closeModal (k : nat) (w : world) : sound w → sound (closeModal k w).
Proof.
  intros Hs. split; [apply well_formed_closeModal, Hs|].
  unfold closeModal. destruct (envs w !! k) as [m|]; [|apply Hs].
  apply (sound_update_node m (set_visible false)) in Hs; [|done].
  apply Hs.
Qed.

Lemma keeps_closeModal (k : nat) (w : world) : keeps w (closeModal k w).
Proof.
  apply keeps_same; [apply envs_closeModal|].
  unfold closeModal. by destruct (envs w !! k).
Qed.

Lemma sound_fire (t : timer) (w : world) : sound w → sound (fire t w).
Proof.
  intros Hs. destruct t as [m|k|m]; simpl.
  - destruct Hs as (Hwf & Hnd & Hl).
    split; [apply (well_formed_fire (RemoveModal m) w Hwf)|].
    split; [by apply NoDup_filter | done].
  - by apply sound_closeModal.
  - by case_decide.
Qed.

Lemma keeps_fire (t : timer) (w : world) : keeps w (fire t w).
Proof.
  destruct t as [m|k|m]; simpl.
  - by apply keeps_same.
  - apply keeps_closeModal.
  - case_decide; by apply keeps_same.
Qed.

Lemma sound_run_next (w : world) : sound w → sound (run_next w).
Proof.
  intros Hs. unfold run_next. destruct (timers w) as [|[d t] q]; [done|].
  apply sound_fire. revert Hs. by apply sound_ext.
Qed.

Lemma keeps_run_next (w : world) : keeps w (run_next w).
Proof.
  unfold run_next. destruct (timers w) as [|[d t] q]; [apply keeps_refl|].
  eapply keeps_trans; [|apply keeps_fire]. by apply keeps_same.
Qed.

Lemma foldl_sound_keeps {A} (f : world → A → world) (l : list A) (w : world) :
  (∀ w x, sound w → sound (f w x)) →
  (∀ w x, keeps w (f w x)) →
  sound w → sound (foldl f w l) ∧ keeps w (foldl f w l).
Proof.
  intros Hs Hk. revert w. induction l as [|x l IH]; intros w Hw; simpl.
  - split; [done | apply keeps_refl].
  - destruct (IH (f w x) (Hs w x Hw)) as [H1 H2].
    split; [done|]. eapply keeps_trans; [apply Hk | done].
Qed.

Lemma sound_keeps_dispatch_keydown (key : string) (w : world) :
  sound w → sound (dispatch_keydown key w) ∧ keeps w (dispatch_keydown key w).
Proof.
  unfold dispatch_keydown. apply foldl_sound_keeps.
  - intros w' k Hs. case_decide; [|done]. unfold handleKeydown.
    destruct (String.eqb key "Escape"); [by apply sound_closeModal | done].
  - intros w' k. case_decide; [|apply keeps_refl]. unfold handleKeydown.
    destruct (String.eqb key "Escape"); [apply keeps_closeModal | apply keeps_refl].
Qed.

Lemma sound_keeps_click (part : modal_node → list nat) (m : nat) (w : world) :
  sound w → sound (click part m w) ∧ keeps w (click part m w).
Proof.
  unfold click. destruct (nodes w !! m) as [n|].
  - apply foldl_sound_keeps; [intros; by apply sound_closeModal|].
    intros. apply keeps_closeModal.
  - intros Hs. split; [done | apply keeps_refl].
Qed.

Lemma sound_keeps_animation_frame (w : world) :
  sound w → sound (animation_frame w) ∧ keeps w (animation_frame w).
Proof.
  intros Hs. unfold animation_frame.
  destruct (foldl_sound_keeps (λ w m, update_node m (set_visible true) w)
              (frames w) w) as [H1 H2].
  { intros w' m Hw'. by apply sound_update_node. }
  { intros w' m. by apply keeps_same. }
  { done. }
  split; [revert H1; by apply sound_ext|].
  eapply keeps_trans; [exact H2 | by apply keeps_same].
Qed.

Lemma elem_of_add_listeners (k k' : nat) (n : modal_node) :
  k' ∈ node_listeners (add_listeners k n) → k' = k ∨ k' ∈ node_listeners n.
Proof.
  unfold node_listeners, add_listeners. simpl.
  rewrite !elem_of_app, !list_elem_of_singleton. tauto.
Qed.

Lemma sound_showEmailModal (w : world) : sound w → sound (showEmailModal w).
Proof.
  intros (Hwf & Hnd & Hl). pose proof (first_modal_bound w Hwf) as Hfirst.
  split; [by apply well_formed_showEmailModal|]. split.
  - rewrite body_showEmailModal. apply NoDup_app. split; [done|].
    split; [|apply NoDup_singleton].
    intros m Hm Hin. apply list_elem_of_singleton in Hin as ->.
    destruct Hwf as (_ & _ & Hbody). rewrite Forall_forall in Hbody.
    apply Hbody in Hm. lia.
  - rewrite showEmailModal_unfold. intros m n k. simpl.
    set (fm := first_modal w). intros Hn Hk.
    assert (Hold : ∀ m0 n0 k0, (nodes w ++ [template]) !! m0 = Some n0 →
                     k0 ∈ node_listeners n0 →
                     (envs w ++ [fm]) !! k0 = Some m0).
    { intros m0 n0 k0 Hn0 Hk0. apply lookup_snoc_Some in Hn0 as [[_ Hn0]|[_ <-]].
      - apply lookup_app_l_Some. by eapply Hl.
      - by apply elem_of_nil in Hk0. }
    destruct (decide (fm = m)) as [<-|Hne].
    + rewrite list_lookup_alter_eq in Hn.
      destruct ((nodes w ++ [template]) !! fm) as [n0|] eqn:Hn0; [|done].
      injection Hn as <-. apply elem_of_add_listeners in Hk as [->|Hk].
      * by apply list_lookup_middle.
      * by eapply Hold.
    + rewrite list_lookup_alter_ne in Hn by done. by eapply Hold.
Qed.

Lemma keeps_showEmailModal (w : world) : keeps w (showEmailModal w).
Proof.
  split; [exists [first_modal w]; apply envs_showEmailModal|].
  by rewrite showEmailModal_unfold.
Qed.

Lemma sound_keeps_submit (doc : document) (chain : list (path * element))
    (k : nat) (w : world) :
  sound w →
  match submit doc chain k w with
  | Returned w' => sound w' ∧ keeps w w' ∧ requests w' = requests w
  | Awaiting w' c =>
      sound w' ∧ keeps w w' ∧ envs w !! c_closure c = Some (c_modal c) ∧
      length (requests w') = S (length (requests w))
  end.
Proof.
  intros Hs. unfold submit.
  destruct (envs w !! k) as [modal|] eqn:Hk; [|by split; [|split; [apply keeps_refl|]]].
  destruct (nodes w !! modal) as [form|] eqn:Hm;
    [|by split; [|split; [apply keeps_refl|]]].
  destruct (String.eqb _ "" || _).
  { split; [by apply sound_update_node|]. split; [by apply keeps_same | done]. }
  destruct (no_variant _).
  { split; [by apply sound_update_node|]. split; [by apply keeps_same | done]. }
  split.
  { apply (sound_update_node modal (set_submit true "Submitting...")) in Hs; [|done].
    revert Hs. by apply sound_ext. }
  split; [|split; [done|]].
  - split; [exists []; by rewrite app_nil_r|]. simpl. rewrite length_app. lia.
  - simpl. rewrite length_app. simpl. lia.
Qed.

Lemma sound_keeps_resume (c : continuation) (o : fetch_outcome) (w : world) :
  sound w → sound (resume c o w) ∧ keeps w (resume c o w).
Proof.
  intros Hs. split.
  - unfold resume. apply sound_update_node; [done|].
    destruct (submitNotification o); unfold showMessage.
    + apply (sound_ext (update_node (c_modal c) (set_email "")
               (update_node (c_modal c)
                  (set_message success_message
                     ("notify-me-form__message notify-me-form__message--" +:+ "success")
                     "block") w))); try done.
      apply sound_update_node; [done|]. by apply sound_update_node.
    + by apply sound_update_node.
  - apply keeps_same; unfold resume; by destruct (submitNotification o).
Qed.

Lemma pending_keeps (w w' : world) (pending : list continuation) :
  keeps w w' →
  Forall (λ c, envs w !! c_closure c = Some (c_modal c)) pending →
  Forall (λ c, envs w' !! c_closure c = Some (c_modal c)) pending.
Proof.
  intros Hk HF. eapply Forall_impl; [exact HF|]. intros c. by apply keeps_lookup.
Qed.

Lemma invariant_keeps (w w' : world) (pending : list continuation) :
  invariant (w, pending) → sound w' → keeps w w' → invariant (w', pending).
Proof.
  intros (_ & Hp & Hlen) Hs Hk. split; [done|]. split.
  - by eapply pending_keeps.
  - simpl in *. destruct Hk as [_ Hr]. lia.
Qed.

Lemma invariant_dispatch_submit (doc : document) (chain : list (path * element))
    (m : nat) (s : state) :
  invariant s → invariant (dispatch_submit doc chain m s).
Proof.
  unfold dispatch_submit. destruct (nodes s.1 !! m) as [n|]; [|done].
  generalize (form_submit n) as ks. intros ks. revert s.
  induction ks as [|k ks IH]; intros [w pending] Hinv; [done|].
  simpl. apply IH. destruct Hinv as (Hs & Hp & Hlen). simpl in *.
  pose proof (sound_keeps_submit doc chain k w Hs) as H.
  destruct (submit doc chain k w) as [w'|w' c].
  - destruct H as (Hs' & Hk' & Hr).
    apply (invariant_keeps w); [by split | done | done].
  - destruct H as (Hs' & Hk' & Hc & Hr). split; [done|]. simpl. split.
    + apply Forall_app. split; [by eapply pending_keeps|].
      apply Forall_singleton. by eapply keeps_lookup.
    + rewrite length_app. simpl. lia.
Qed.

Lemma invariant_handle (doc : document) (chain : list (path * element))
    (s : state) (e : event) :
  invariant s → invariant (handle doc chain s e).
Proof.
  intros Hinv. destruct s as [w pending].
  assert (Hs : sound w) by apply Hinv.
  destruct e as [| |key|p m|m value| |m|i o]; simpl.
  - apply (invariant_keeps w); [done | by apply sound_showEmailModal |].
    apply keeps_showEmailModal.
  - destruct (sound_keeps_animation_frame w Hs). by apply (invariant_keeps w).
  - destruct (sound_keeps_dispatch_keydown key w Hs). by apply (invariant_keeps w).
  - destruct (sound_keeps_click (closer_listeners p) m w Hs).
    by apply (invariant_keeps w).
  - apply (invariant_keeps w); [done | by apply sound_update_node |].
    by apply keeps_same.
  - apply (invariant_keeps w); [done | by apply sound_run_next |].
    apply keeps_run_next.
  - by apply invariant_dispatch_submit.
  - destruct (pending !! i) as [c|] eqn:Hc; [|done].
    destruct (sound_keeps_resume c o w Hs) as [Hs' Hk'].
    destruct Hinv as (_ & Hp & Hlen). simpl in *.
    split; [done|]. simpl. split.
    + eapply pending_keeps; [done|]. by apply Forall_delete.
    + rewrite length_delete by (by rewrite Hc). destruct Hk' as [_ Hr].
      apply Nat.le_trans with (length (requests w)); [lia | exact Hr].
Qed.

(** X6.  Whatever happens on the page, in whatever order (opening any number
    of modals, frames, keys, clicks on any part of any modal, typing,
    timeouts, submissions and their answers), these always hold: every
    closure holds a modal node that exists, every keydown listener on the
    document and every listener on a part of a modal belongs to a closure,
    the listeners on the parts of a modal belong to closures that hold that
    very modal, no modal is attached twice, every suspended submit handler
    will write to the modal its closure holds, and there are never more
    suspended handlers than calls made. *)
Theorem page_invariant (doc : document) (chain : list (path * element))
    (events : list event) :
  invariant (run doc chain events).
Proof.
  unfold run.
  assert (Hinit : invariant (initial, [])).
  { split; [|split; [apply Forall_nil_2 | done]].
    split; [apply well_formed_initial|]. split; [apply NoDup_nil_2|].
    intros m n k Hn. by destruct m. }
  revert Hinit. generalize (initial, @nil continuation) as s. intros s.
  revert s. induction events as [|e events IH]; intros s Hs; [done|].
  simpl. by apply IH, invariant_handle.
Qed.

End PageFacts.

(** ** The life of a modal *)

Module LifecycleFacts.
Import Js Dom Watcher Modal Submission Page SubmissionFacts ModalFacts.

(** *** What [closeModal] and the timeouts leave alone *)

Lemma nodes_closeModal (k : nat) (w : world) :
  nodes (closeModal k w) =
  match envs w !! k with
  | Some m => alter (set_visible false) m (nodes w)
  | None => nodes w
  end.
Proof. unfold closeModal. by destruct (envs w !! k). Qed.

Lemma body_closeModal (k : nat) (w : world) : body (closeModal k w) = body w.
Proof. unfold closeModal. by destruct (envs w !! k). Qed.

Lemma length_nodes_closeModal (k : nat) (w : world) :
  length (nodes (closeModal k w)) = length (nodes w).
Proof. rewrite nodes_closeModal. destruct (envs w !! k); by rewrite ?length_alter. Qed.

Lemma visible_false_closeModal (k m : nat) (w : world) :
  visible <$> nodes w !! m = Some false →
  visible <$> nodes (closeModal k w) !! m = Some false.
Proof.
  intros H. rewrite nodes_closeModal. destruct (envs w !! k) as [m'|]; [|done].
  destruct (decide (m' = m)) as [->|Hne].
  - rewrite list_lookup_alter_eq. by destruct (nodes w !! m).
  - by rewrite list_lookup_alter_ne.
Qed.

(** What one call of [closeModal] achieves. *)
Lemma closeModal_closes (k m : nat) (w : world) :
  envs w !! k = Some m → m < length (nodes w) →
  (k ∉ keydown (closeModal k w)) ∧
  visible <$> nodes (closeModal k w) !! m = Some false ∧
  (now w + 300, RemoveModal m) ∈ timers (closeModal k w).
Proof.
  intros Hk Hm. split; [|split].
  - rewrite keydown_closeModal, Hk, list_elem_of_filter. tauto.
  - rewrite nodes_closeModal, Hk, list_lookup_alter_eq.
    destruct (lookup_lt_is_Some_2 _ _ Hm) as [n ->]. done.
  - rewrite timers_closeModal. simpl. rewrite Hk. apply elem_of_enqueue. by left.
Qed.

Lemma timers_closeModal_mono (x : nat * timer) (k : nat) (w : world) :
  x ∈ timers w → x ∈ timers (closeModal k w).
Proof. intros Hx. rewrite timers_closeModal. by apply elem_of_registered. Qed.

Lemma keydown_closeModal_subset (x k : nat) (w : world) :
  x ∈ keydown (closeModal k w) → x ∈ keydown w.
Proof.
  rewrite keydown_closeModal. destruct (envs w !! k); [|done].
  rewrite list_elem_of_filter. tauto.
Qed.

Lemma envs_fire (t : timer) (w : world) : envs (fire t w) = envs w.
Proof. destruct t; simpl; [done | apply envs_closeModal | by case_decide]. Qed.

Lemma length_nodes_fire (t : timer) (w : world) :
  length (nodes (fire t w)) = length (nodes w).
Proof.
  destruct t; simpl; [done | apply length_nodes_closeModal | by case_decide].
Qed.

Lemma keydown_fire_subset (x : nat) (t : timer) (w : world) :
  x ∈ keydown (fire t w) → x ∈ keydown w.
Proof.
  destruct t; simpl; [done | apply keydown_closeModal_subset | by case_decide].
Qed.

Lemma visible_false_fire (t : timer) (m : nat) (w : world) :
  visible <$> nodes w !! m = Some false →
  visible <$> nodes (fire t w) !! m = Some false.
Proof.
  destruct t; simpl; [done | apply visible_false_closeModal | by case_decide].
Qed.

Lemma run_next_cons (d : nat) (t : timer) (q : list (nat * timer)) (w : world) :
  timers w = (d, t) :: q →
  run_next w =
  with_timers (λ _, registered t (with_now (now w `max` d) w) q)
    (fire t (with_now (now w `max` d) w)).
Proof.
  intros Hq. rewrite <- run_next_with_timers. f_equal.
  rewrite <- Hq. symmetry. apply with_timers_id.
Qed.

(** *** A closure on its way out stays on its way out *)

Lemma closing_run_next (k m : nat) (w : world) :
  closing k m w → closing k m (run_next w).
Proof.
  intros (Hk & Hm & H).
  destruct (timers w) as [|[d t] q] eqn:Hq.
  { unfold run_next. rewrite Hq. unfold closing. by rewrite Hq. }
  rewrite (run_next_cons d t q w Hq).
  set (w' := with_now (now w `max` d) w).
  assert (Hk' : envs w' !! k = Some m) by done.
  assert (Hm' : m < length (nodes w')) by done.
  split; [change (envs (fire t w') !! k = Some m); by rewrite envs_fire|].
  split; [change (m < length (nodes (fire t w'))); by rewrite length_nodes_fire|].
  change ((∃ d0, (d0, CloseModal k) ∈ registered t w' q) ∨
          ((k ∉ keydown (fire t w')) ∧
           visible <$> nodes (fire t w') !! m = Some false ∧
           ((∃ d0, (d0, RemoveModal m) ∈ registered t w' q) ∨ m ∉ body (fire t w')))).
  assert (Hdone : k ∉ keydown w' →
            visible <$> nodes w' !! m = Some false →
            (∃ d0, (d0, RemoveModal m) ∈ registered t w' q) ∨ m ∉ body (fire t w') →
            (∃ d0, (d0, CloseModal k) ∈ registered t w' q) ∨
            ((k ∉ keydown (fire t w')) ∧
             visible <$> nodes (fire t w') !! m = Some false ∧
             ((∃ d0, (d0, RemoveModal m) ∈ registered t w' q) ∨ m ∉ body (fire t w')))).
  { intros H1 H2 H3. right. split; [|split; [|done]].
    - intros Hin. by apply keydown_fire_subset in Hin.
    - by apply visible_false_fire. }
  destruct H as [[d0 Hc]|(Hkey & Hvis & Hrem)].
  - apply elem_of_cons in Hc as [[= <- <-]|Hc].
    + destruct (closeModal_closes k m w' Hk' Hm') as (H1 & H2 & H3).
      right. split; [done|]. split; [done|]. left. exists (now w' + 300).
      unfold registered. rewrite Hk'. apply elem_of_enqueue. by left.
    + left. exists d0. by apply elem_of_registered.
  - apply Hdone; [done | done |].
    destruct Hrem as [[d0 Hr]|Hout].
    + apply elem_of_cons in Hr as [[= <- <-]|Hr].
      * right. simpl. rewrite list_elem_of_filter. tauto.
      * left. exists d0. by apply elem_of_registered.
    + right. intros Hin. by apply body_fire in Hin.
Qed.

Lemma closing_drain (k m n : nat) (w : world) :
  closing k m w → closing k m (drain n w).
Proof.
  revert w. induction n as [|n IH]; intros w H; [done|].
  simpl. by apply IH, closing_run_next.
Qed.

(** Once the timeouts have fired, a closure on its way out has closed its
    node and the node has left the document. *)
Lemma closing_settle (k m : nat) (w : world) :
  closing k m w → closed k m (settle w).
Proof.
  intros H. apply (closing_drain k m (pending_work w)) in H.
  fold (settle w) in H. destruct H as (_ & _ & H).
  rewrite timers_settle in H.
  destruct H as [[d Hd]|(H1 & H2 & [[d Hd]|H3])];
    [by apply elem_of_nil in Hd | by apply elem_of_nil in Hd | done].
Qed.

Lemma body_drain (x n : nat) (w : world) : x ∈ body (drain n w) → x ∈ body w.
Proof.
  revert w. induction n as [|n IH]; intros w Hx; [done|].
  simpl in Hx. apply IH in Hx. unfold run_next in Hx.
  destruct (timers w) as [|[d t] q]; [done|]. by apply body_fire in Hx.
Qed.

(** *** After a successful submission *)

(** X7.  After a successful submission [closeModal] is due 2500
    milliseconds later, and once the timeouts have fired the modal is closed
    for good: the keydown listener of its closure is removed, its visibility
    class is off, and its node has left the document. *)
Theorem success_closes_modal
    (c : continuation) (o : fetch_outcome) (v : jsval) (w : world) :
  envs w !! c_closure c = Some (c_modal c) →
  c_modal c < length (nodes w) →
  submitNotification o = Normal v →
  (now w + 2500, CloseModal (c_closure c)) ∈ timers (resume c o w) ∧
  closed (c_closure c) (c_modal c) (settle (resume c o w)).
Proof.
  intros Hk Hm Hv.
  destruct (resume_fulfilled c o v w Hm Hv) as (_ & _ & Ht).
  assert (Hin : (now w + 2500, CloseModal (c_closure c)) ∈ timers (resume c o w)).
  { rewrite Ht. apply elem_of_enqueue. by left. }
  split; [done|]. apply closing_settle. split; [|split; [|eauto]].
  - unfold resume. by rewrite Hv.
  - unfold resume. rewrite Hv. unfold showMessage.
    by rewrite length_update_node, nodes_setTimeout, !length_update_node.
Qed.

(** The sample submission, answered with 200 and a JSON body. *)
Lemma success_closes_modal_in_flight :
  let done := resume Samples.in_flight.2 (Response 200 (JsonValue (JObj [])))
                Samples.in_flight.1 in
  (2500, CloseModal 0) ∈ timers done ∧ closed 0 0 (settle done).
Proof.
  apply (success_closes_modal Samples.in_flight.2
           (Response 200 (JsonValue (JObj []))) (JObj []) Samples.in_flight.1).
  - reflexivity.
  - vm_compute. lia.
  - reflexivity.
Defined.

(** *** The Escape key *)

Lemma dispatch_keydown_other (key : string) (ks : list nat) (w : world) :
  key ≠ "Escape" →
  foldl (λ w k, if decide (k ∈ keydown w) then handleKeydown k key w else w) w ks = w.
Proof.
  intros Hkey. induction ks as [|k ks IH]; [done|]. simpl.
  rewrite (handleKeydown_other_key k key w Hkey). by destruct (decide _).
Qed.

(** X9.  A key other than Escape changes nothing, whatever listeners are
    registered. *)
Theorem other_keys_ignored (key : string) (w : world) :
  key ≠ "Escape" → dispatch_keydown key w = w.
Proof. intros Hkey. by apply dispatch_keydown_other. Qed.

(** Typing a letter into the open modal of the sample page. *)
Lemma other_keys_ignored_letter :
  dispatch_keydown "a" Samples.open_modal = Samples.open_modal.
Proof. apply other_keys_ignored. discriminate. Defined.

Lemma leaving_closeModal (k m k0 : nat) (w : world) :
  leaving k m w → leaving k m (closeModal k0 w).
Proof.
  intros (H1 & H2 & d & H3). split; [|split].
  - intros Hin. by apply keydown_closeModal_subset in Hin.
  - by apply visible_false_closeModal.
  - exists d. by apply timers_closeModal_mono.
Qed.

Lemma leaving_closing (k m : nat) (w : world) :
  envs w !! k = Some m → m < length (nodes w) → leaving k m w → closing k m w.
Proof. intros Hk Hm (H1 & H2 & H3). split; [done|]. split; [done|]. right. auto. Qed.

(** The Escape key, listener by listener. *)
Lemma escape_fold (ks : list nat) (w : world) :
  well_formed w →
  (∀ k, k ∈ keydown w → k ∈ ks) →
  let w' := foldl (λ w k, if decide (k ∈ keydown w)
                          then handleKeydown k "Escape" w else w) w ks in
  keydown w' = [] ∧
  envs w' = envs w ∧
  length (nodes w') = length (nodes w) ∧
  body w' = body w ∧
  (∀ k m, leaving k m w → leaving k m w') ∧
  (∀ k m, k ∈ keydown w → envs w !! k = Some m → leaving k m w').
Proof.
  revert w. induction ks as [|k0 ks IH]; intros w Hwf Hsub; simpl.
  - assert (keydown w = []) as Hnil.
    { destruct (keydown w) as [|k l] eqn:E; [done|].
      specialize (Hsub k (list_elem_of_here _ _)). by apply elem_of_nil in Hsub. }
    do 5 (split; [done|]). intros k1 m1 Hin. rewrite Hnil in Hin.
    by apply elem_of_nil in Hin.
  - destruct (decide (k0 ∈ keydown w)) as [Hin|Hout].
    + change (handleKeydown k0 "Escape" w) with (closeModal k0 w).
      destruct (well_formed_listener_bound w k0 Hwf Hin) as (m0 & Hk0 & Hm0).
      destruct (IH (closeModal k0 w)) as (I1 & I2 & I3 & I4 & I5 & I6).
      { by apply well_formed_closeModal. }
      { intros k Hk. rewrite keydown_closeModal, Hk0 in Hk.
        apply list_elem_of_filter in Hk as [Hne Hk].
        apply Hsub, elem_of_cons in Hk as [->|Hk]; done. }
      rewrite envs_closeModal in I2, I6.
      rewrite length_nodes_closeModal in I3. rewrite body_closeModal in I4.
      do 4 (split; [done|]). split.
      * intros k m Hl. by apply I5, leaving_closeModal.
      * intros k m Hk Hkm. destruct (decide (k = k0)) as [->|Hne].
        -- apply I5. assert (m = m0) as -> by congruence.
           destruct (closeModal_closes k0 m0 w Hk0 Hm0) as (H1 & H2 & H3).
           split; [done|]. split; [done|]. eauto.
        -- apply I6; [|done]. rewrite keydown_closeModal, Hk0.
           by apply list_elem_of_filter.
    + apply IH; [done|]. intros k Hk.
      specialize (Hsub k Hk). apply elem_of_cons in Hsub as [->|Hsub]; done.
Qed.

(** X8.  One Escape key runs the keydown listener of every open of the
    modal that is still registered: afterwards no keydown listener is left on
    the document, and every modal that one of those listeners belonged to is
    closed and, once the timeouts have fired, out of the document. *)
Theorem escape_closes_every_modal (w : world) :
  well_formed w →
  keydown (dispatch_keydown "Escape" w) = [] ∧
  ∀ k, k ∈ keydown w →
       ∃ m, envs w !! k = Some m ∧
            leaving k m (dispatch_keydown "Escape" w) ∧
            closed k m (settle (dispatch_keydown "Escape" w)).
Proof.
  intros Hwf.
  destruct (escape_fold (keydown w) w Hwf) as (H1 & H2 & H3 & H4 & H5 & H6); [done|].
  split; [done|]. intros k Hk.
  destruct (well_formed_listener_bound w k Hwf Hk) as (m & Hkm & Hm).
  exists m. split; [done|]. split; [by apply H6|].
  apply closing_settle, leaving_closing.
  - unfold dispatch_keydown. by rewrite H2.
  - unfold dispatch_keydown. by rewrite H3.
  - by apply H6.
Qed.

(** Escape in the open modal of the sample page. *)
Lemma escape_closes_every_modal_open_modal :
  keydown (dispatch_keydown "Escape" Samples.open_modal) = [] ∧
  ∀ k, k ∈ keydown Samples.open_modal →
       ∃ m, envs Samples.open_modal !! k = Some m ∧
            leaving k m (dispatch_keydown "Escape" Samples.open_modal) ∧
            closed k m (settle (dispatch_keydown "Escape" Samples.open_modal)).
Proof.
  apply (escape_closes_every_modal Samples.open_modal).
  repeat split; repeat constructor.
Defined.

(** *** From the click to the removal *)

(** The animation-frame callbacks only add the visibility class, to the
    nodes they were registered for. *)
Lemma frame_fold (l : list nat) (w : world) :
  let w' := foldl (λ w m, update_node m (set_visible true) w) w l in
  envs w' = envs w ∧ keydown w' = keydown w ∧ body w' = body w ∧
  timers w' = timers w ∧ length (nodes w') = length (nodes w) ∧
  ∀ m n0, nodes w !! m = Some n0 →
          ∃ b, nodes w' !! m = Some (set_visible b n0) ∧
               (m ∈ l → b = true) ∧ (m ∉ l → b = visible n0).
Proof.
  revert w. induction l as [|x l IH]; intros w; simpl.
  - do 5 (split; [done|]). intros m n0 Hm. exists (visible n0).
    split; [by destruct n0|]. split; [|done].
    intros Hin. by apply elem_of_nil in Hin.
  - destruct (IH (update_node x (set_visible true) w)) as (I1 & I2 & I3 & I4 & I5 & I6).
    do 4 (split; [done|]). split; [by rewrite I5, length_update_node|].
    intros m n0 Hm. destruct (decide (x = m)) as [->|Hne].
    + destruct (I6 m (set_visible true n0)) as (b & Hb & Hin & Hout).
      { by rewrite lookup_update_node, Hm. }
      exists b. split; [done|]. split.
      * intros _. destruct (decide (m ∈ l)) as [Hl|Hl]; [by apply Hin|].
        by rewrite (Hout Hl).
      * intros Hnot. destruct Hnot. apply list_elem_of_here.
    + destruct (I6 m n0) as (b & Hb & Hin & Hout).
      { by rewrite lookup_update_node_ne. }
      exists b. split; [done|]. split.
      * intros Hm'. apply elem_of_cons in Hm' as [->|Hm']; [done | by apply Hin].
      * intros Hnot. apply Hout. intros Hl. apply Hnot. by apply list_elem_of_further.
Qed.

Lemma closer_listeners_opened (p : closer) (k : nat) (b : bool) :
  closer_listeners p (set_visible b (add_listeners k template)) = [k].
Proof. by destruct p. Qed.

(** X10.  The life of a modal opened on a page that shows none: the click
    inserts one node and registers one keydown listener, the next frame makes
    the node visible; then each of the four ways of closing it (the close
    button, the cancel button, the backdrop, the Escape key) removes that
    keydown listener, takes the visibility class off and leaves the removal
    of the node pending, and once the timeouts have fired the node is out of
    the document, which shows no modal again. *)
Theorem modal_lifecycle (w : world) (t : trigger) :
  well_formed w →
  body w = [] →
  let n := length (nodes w) in
  let k := length (envs w) in
  let opened := animation_frame (handleNotifyMeClick w) in
  let shut := close_by t n opened in
  body opened = [n] ∧
  visible <$> nodes opened !! n = Some true ∧
  k ∈ keydown opened ∧
  leaving k n shut ∧
  body shut = [n] ∧
  closed k n (settle shut) ∧
  body (settle shut) = [].
Proof.
  intros Hwf Hbody n k opened shut.
  assert (Hfirst : first_modal w = n) by (unfold first_modal; by rewrite Hbody).
  pose proof (well_formed_showEmailModal w Hwf) as Hwf1.
  pose proof (showEmailModal_unfold w) as Hshow. rewrite Hfirst in Hshow.
  assert (Hnode : nodes (showEmailModal w) !! n = Some (add_listeners k template)).
  { rewrite Hshow. simpl. rewrite list_lookup_alter_eq.
    by rewrite (list_lookup_middle (nodes w) [] template n). }
  assert (Hframes : n ∈ frames (showEmailModal w)).
  { rewrite Hshow. simpl. apply elem_of_app. right. apply list_elem_of_here. }
  destruct (frame_fold (frames (showEmailModal w)) (showEmailModal w))
    as (F1 & F2 & F3 & F4 & F5 & F6).
  destruct (F6 n _ Hnode) as (b & Hb & Hin & _). rewrite (Hin Hframes) in Hb.
  assert (Henvs : envs opened !! k = Some n).
  { unfold opened, handleNotifyMeClick, animation_frame. simpl. rewrite F1.
    rewrite envs_showEmailModal, Hfirst. by apply list_lookup_middle. }
  assert (Hlen : n < length (nodes opened)).
  { unfold opened, handleNotifyMeClick, animation_frame. simpl. rewrite F5.
    by eapply lookup_lt_Some. }
  assert (Hbody1 : body opened = [n]).
  { unfold opened, handleNotifyMeClick, animation_frame. simpl. rewrite F3.
    by rewrite body_showEmailModal, Hbody. }
  assert (Hkey : k ∈ keydown opened).
  { unfold opened, handleNotifyMeClick, animation_frame. simpl. rewrite F2.
    rewrite keydown_showEmailModal. apply elem_of_app. right. apply list_elem_of_here. }
  assert (Hwf2 : well_formed opened).
  { unfold opened, handleNotifyMeClick, animation_frame, well_formed. simpl.
    rewrite F1, F2, F3, F5. apply Hwf1. }
  assert (Hclose : leaving k n shut ∧ body shut = [n] ∧
                   envs shut !! k = Some n ∧ n < length (nodes shut)).
  { unfold shut. destruct t as [p|]; simpl.
    - unfold click.
      change (nodes opened !! n) with
        (nodes (foldl (λ w m, update_node m (set_visible true) w)
                  (showEmailModal w) (frames (showEmailModal w))) !! n).
      rewrite Hb, closer_listeners_opened. simpl.
      destruct (closeModal_closes k n opened Henvs Hlen) as (H1 & H2 & H3).
      split; [split; [done|]; split; [done|]; eauto|].
      split; [by rewrite body_closeModal|].
      split; [by rewrite envs_closeModal | by rewrite length_nodes_closeModal].
    - destruct (escape_fold (keydown opened) opened Hwf2)
        as (E1 & E2 & E3 & E4 & E5 & E6); [done|].
      split; [by apply E6|]. unfold dispatch_keydown.
      split; [by rewrite E4|]. split; [by rewrite E2 | by rewrite E3]. }
  destruct Hclose as (Hleave & Hbody2 & Henvs2 & Hlen2).
  pose proof (closing_settle k n shut
                (leaving_closing k n shut Henvs2 Hlen2 Hleave)) as Hclosed.
  split; [done|]. split.
  { change (nodes opened !! n) with
      (nodes (foldl (λ w m, update_node m (set_visible true) w)
                (showEmailModal w) (frames (showEmailModal w))) !! n).
    by rewrite Hb. }
  do 4 (split; [done|]).
  destruct (body (settle shut)) as [|x rest] eqn:Hrest; [done|].
  assert (Hx : x ∈ body (settle shut)) by (rewrite Hrest; apply list_elem_of_here).
  pose proof Hx as Hx'. apply body_drain in Hx'. rewrite Hbody2 in Hx'.
  apply list_elem_of_singleton in Hx' as ->.
  destruct Hclosed as (_ & _ & Hout). done.
Qed.

(** On a page that has seen nothing yet, closing with the backdrop. *)
Lemma modal_lifecycle_backdrop :
  let opened := animation_frame (handleNotifyMeClick initial) in
  let shut := close_by (ByClick Backdrop) 0 opened in
  body opened = [0] ∧
  visible <$> nodes opened !! 0 = Some true ∧
  0 ∈ keydown opened ∧
  leaving 0 0 shut ∧
  body shut = [0] ∧
  closed 0 0 (settle shut) ∧
  body (settle shut) = [].
Proof.
  apply (modal_lifecycle initial (ByClick Backdrop)).
  - repeat split; constructor.
  - reflexivity.
Defined.

(** *** A node that no closure holds *)

Lemma unbound_closeModal (n k : nat) (w : world) :
  unbound n w → unbound n (closeModal k w).
Proof.
  intros [He Ht]. split; [by rewrite envs_closeModal|].
  intros d Hin. rewrite timers_closeModal in Hin. simpl in Hin.
  destruct (envs w !! k) as [m|] eqn:Hk; [|by apply Ht in Hin].
  apply elem_of_enqueue in Hin as [[= _ ->]|Hin]; [by apply He in Hk | by apply Ht in Hin].
Qed.

Lemma unbound_run_next (n : nat) (w : world) :
  n ∈ body w → unbound n w → n ∈ body (run_next w) ∧ unbound n (run_next w).
Proof.
  intros Hb Hu. pose proof Hu as [He Ht].
  destruct (timers w) as [|[d t] q] eqn:Hq.
  { unfold run_next. rewrite Hq. by split. }
  rewrite (run_next_cons d t q w Hq).
  set (w' := with_now (now w `max` d) w).
  assert (Hq' : ∀ d0, (d0, RemoveModal n) ∉ q).
  { intros d0 Hin. apply (Ht d0). by apply list_elem_of_further. }
  assert (Hhead : t ≠ RemoveModal n).
  { intros ->. apply (Ht d). apply list_elem_of_here. }
  split.
  - change (n ∈ body (fire t w')). destruct t as [m|k|m]; simpl.
    + apply list_elem_of_filter. split; [congruence | done].
    + by rewrite body_closeModal.
    + by case_decide.
  - split.
    + intros k. change (envs (fire t w') !! k ≠ Some n). rewrite envs_fire. apply He.
    + intros d0. change ((d0, RemoveModal n) ∉ registered t w' q).
      destruct t as [m|k|m]; simpl; try apply Hq'.
      destruct (envs w !! k) as [m|] eqn:Hk; [|apply Hq'].
      intros Hin. apply elem_of_enqueue in Hin as [[= _ ->]|Hin];
        [by apply He in Hk | by apply Hq' in Hin].
Qed.

Lemma unbound_drain (n fuel : nat) (w : world) :
  n ∈ body w → unbound n w → n ∈ body (drain fuel w).
Proof.
  revert w. induction fuel as [|fuel IH]; intros w Hb Hu; [done|].
  simpl. destruct (unbound_run_next n w Hb Hu). by apply IH.
Qed.

Lemma unbound_close_by (n m : nat) (t : trigger) (w : world) :
  unbound n w → unbound n (close_by t m w) ∧ body (close_by t m w) = body w.
Proof.
  assert (Hfold : ∀ (A : Type) (f : world → A → world) (l : list A) (w0 : world),
            (∀ w1 x, unbound n w1 → unbound n (f w1 x) ∧ body (f w1 x) = body w1) →
            unbound n w0 → unbound n (foldl f w0 l) ∧ body (foldl f w0 l) = body w0).
  { intros A f l. induction l as [|x l IH]; intros w0 Hf Hu; [done|].
    simpl. destruct (Hf w0 x Hu) as [H1 H2].
    destruct (IH (f w0 x) Hf H1) as [H3 H4]. split; [done | congruence]. }
  intros Hu. destruct t as [p|]; simpl.
  - unfold click. destruct (nodes w !! m) as [nd|]; [|done].
    apply Hfold; [|done]. intros w1 k Hu1.
    split; [by apply unbound_closeModal | apply body_closeModal].
  - unfold dispatch_keydown. apply Hfold; [|done]. intros w1 k Hu1.
    case_decide; [|done]. unfold handleKeydown. simpl.
    split; [by apply unbound_closeModal | apply body_closeModal].
Qed.

(** X11.  Opening the modal while one is already in the document inserts a
    second node that nothing can close: the closures of that open hold the
    first node, the second carries no listener, so a click on any of its
    parts changes nothing, and after any way of closing (a click on a part of
    any node, or the Escape key) and all the timeouts it stays in the
    document. *)
Theorem second_modal_is_orphaned (w : world) (t : trigger) (m : nat) :
  well_formed w →
  body w ≠ [] →
  (∀ d m0, (d, RemoveModal m0) ∈ timers w → m0 < length (nodes w)) →
  let n := length (nodes w) in
  let w' := handleNotifyMeClick w in
  first_modal w ≠ n ∧
  envs w' !! length (envs w) = Some (first_modal w) ∧
  nodes w' !! n = Some template ∧
  (∀ p, click (closer_listeners p) n w' = w') ∧
  n ∈ body (settle (close_by t m w')).
Proof.
  intros Hwf Hbody Htimers n w'.
  assert (Hfirst : first_modal w < n).
  { unfold first_modal. destruct (body w) as [|m0 b] eqn:E; [done|]. simpl.
    destruct Hwf as (_ & _ & Hb). rewrite E in Hb.
    by apply Forall_cons in Hb as [Hb _]. }
  assert (Hnode : nodes w' !! n = Some template).
  { unfold w', handleNotifyMeClick. rewrite showEmailModal_unfold. simpl.
    rewrite list_lookup_alter_ne by lia. by apply list_lookup_middle. }
  assert (Hunbound : unbound n w').
  { unfold w', handleNotifyMeClick. split.
    - intros k Hk. rewrite envs_showEmailModal in Hk.
      apply lookup_snoc_Some in Hk as [[_ Hk]|[_ Hk]]; [|lia].
      destruct Hwf as (He & _ & _). rewrite Forall_forall in He.
      apply list_elem_of_lookup_2, He in Hk. unfold n in Hk. lia.
    - intros d Hin. rewrite showEmailModal_unfold in Hin. simpl in Hin.
      apply elem_of_enqueue in Hin as [[=]|Hin].
      apply Htimers in Hin. unfold n in Hin. lia. }
  split; [lia|]. split.
  { unfold w', handleNotifyMeClick. rewrite envs_showEmailModal.
    by apply list_lookup_middle. }
  split; [done|]. split.
  - intros p. unfold click. rewrite Hnode. by destruct p.
  - destruct (unbound_close_by n m t w' Hunbound) as [Hu Hb].
    apply unbound_drain; [|done]. rewrite Hb.
    unfold w', handleNotifyMeClick. rewrite body_showEmailModal.
    apply elem_of_app. right. apply list_elem_of_here.
Qed.

(** A second click while the modal of the sample page is open, then Escape. *)
Lemma second_modal_is_orphaned_escape :
  let w' := handleNotifyMeClick Samples.open_modal in
  first_modal Samples.open_modal ≠ 1 ∧
  envs w' !! 1 = Some (first_modal Samples.open_modal) ∧
  nodes w' !! 1 = Some template ∧
  (∀ p, click (closer_listeners p) 1 w' = w') ∧
  1 ∈ body (settle (close_by ByEscape 0 w')).
Proof.
  apply (second_modal_is_orphaned Samples.open_modal ByEscape 0).
  - repeat split; repeat constructor.
  - discriminate.
  - intros d m0 Hin. vm_compute in Hin.
    apply list_elem_of_singleton in Hin. discriminate.
Defined.

(** *** Several click listeners *)

Lemma opens_fold {A} (l : list A) (w : world) :
  let w' := foldl (λ w _, handleNotifyMeClick w) w l in
  length (nodes w') = length (nodes w) + length l ∧
  body w' = body w ++ seq (length (nodes w)) (length l) ∧
  keydown w' = keydown w ++ seq (length (envs w)) (length l) ∧
  envs w' = envs w ++ replicate (length l) (first_modal w).
Proof.
  revert w. induction l as [|x l IH]; intros w; simpl.
  - by rewrite !app_nil_r, Nat.add_0_r.
  - destruct (IH (handleNotifyMeClick w)) as (I1 & I2 & I3 & I4).
    unfold handleNotifyMeClick in *.
    assert (Hn : length (nodes (showEmailModal w)) = S (length (nodes w))).
    { rewrite showEmailModal_unfold. simpl.
      rewrite length_alter, length_app. simpl. lia. }
    assert (He : length (envs (showEmailModal w)) = S (length (envs w))).
    { rewrite envs_showEmailModal, length_app. simpl. lia. }
    rewrite Hn in I1, I2. rewrite He in I3.
    rewrite first_modal_showEmailModal in I4.
    rewrite body_showEmailModal in I2. rewrite keydown_showEmailModal in I3.
    rewrite envs_showEmailModal in I4.
    rewrite I1, I2, I3, I4, <- !app_assoc. split; [lia|]. done.
Qed.

(** X12.  One click on the notify button opens as many modals as the button
    has click listeners: each listener inserts a node of its own and
    registers a keydown listener of its own, and the closures of all of them
    hold the same node, the first modal of the document. *)
Theorem click_opens_one_modal_per_listener (r : registry) (w : world) :
  let c := length (click_listeners r) in
  let w' := click_notify_button r w in
  length (nodes w') = length (nodes w) + c ∧
  body w' = body w ++ seq (length (nodes w)) c ∧
  keydown w' = keydown w ++ seq (length (envs w)) c ∧
  envs w' = envs w ++ replicate c (first_modal w).
Proof. apply opens_fold. Qed.

End LifecycleFacts.

(** ** Attaching and detaching the component *)

Module AttachFacts.
Import Js Dom Watcher Modal Submission Page WatcherFacts.

(** *** One event after another *)

(** What [handleVariantUpdate] writes depends on the event alone. *)
Lemma handleVariantUpdate_decides (event : custom_event) :
  ∃ own button line,
    ∀ this d, notify_button this = Some d →
              handleVariantUpdate this event = Normal (set_display this own button line).
Proof.
  set (variant := opt_member (detail event) "resource").
  destruct (availability_test variant false) as (u & Hu & Hu').
  destruct (availability_test variant true) as (a & Ha & Ha').
  destruct u.
  - destruct (proj1 Hu' eq_refl) as (fields & Hv & _).
    eexists _, _, _. intros this d Hd. unfold handleVariantUpdate.
    rewrite Hd. fold variant. rewrite Hu. simpl. rewrite Hv, member_id_object.
    reflexivity.
  - destruct a.
    + destruct (proj1 Ha' eq_refl) as (fields & Hv & _).
      eexists _, _, _. intros this d Hd. unfold handleVariantUpdate.
      rewrite Hd. fold variant. rewrite Hu. simpl. rewrite Ha. simpl.
      rewrite Hv, member_id_object. reflexivity.
    + eexists _, _, _. intros this d Hd. unfold handleVariantUpdate.
      rewrite Hd. fold variant. rewrite Hu. simpl. rewrite Ha. reflexivity.
Qed.

(** X13.  The control keeps no memory of earlier events: after two events in
    a row its display, and that of its button, are what the second event
    alone would have set; the bound handler is untouched and each event adds
    one line to the log. *)
Theorem handleVariantUpdate_last_event_wins
    (this : component) (first second : custom_event) (d : string) :
  notify_button this = Some d →
  ∃ t1 t2 t2',
    handleVariantUpdate this first = Normal t1 ∧
    handleVariantUpdate t1 second = Normal t2 ∧
    handleVariantUpdate this second = Normal t2' ∧
    style_display t2 = style_display t2' ∧
    notify_button t2 = notify_button t2' ∧
    boundVariantUpdateHandler t2 = boundVariantUpdateHandler this ∧
    length (console t2) = length (console this) + 2.
Proof.
  intros Hd.
  destruct (handleVariantUpdate_decides first) as (o1 & b1 & l1 & H1).
  destruct (handleVariantUpdate_decides second) as (o2 & b2 & l2 & H2).
  eexists _, _, _. split; [by apply (H1 this d)|].
  split; [by apply (H2 _ b1)|]. split; [by apply (H2 this d)|].
  simpl. rewrite !length_app. simpl. repeat split; lia.
Qed.

(** Sold out, then back in stock. *)
Lemma handleVariantUpdate_last_event_wins_restock :
  ∃ t1 t2 t2',
    handleVariantUpdate Samples.fresh_component Samples.sold_out = Normal t1 ∧
    handleVariantUpdate t1
      {| ev_type := "variant:selected";
         detail := JObj [("resource", JObj [("available", JBool true)])] |} = Normal t2 ∧
    handleVariantUpdate Samples.fresh_component
      {| ev_type := "variant:selected";
         detail := JObj [("resource", JObj [("available", JBool true)])] |} = Normal t2' ∧
    style_display t2 = style_display t2' ∧
    notify_button t2 = notify_button t2' ∧
    boundVariantUpdateHandler t2 = boundVariantUpdateHandler Samples.fresh_component ∧
    length (console t2) = length (console Samples.fresh_component) + 2.
Proof.
  exact (handleVariantUpdate_last_event_wins Samples.fresh_component Samples.sold_out
           {| ev_type := "variant:selected";
              detail := JObj [("resource", JObj [("available", JBool true)])] |}
           "" eq_refl).
Defined.

(** *** The scope after a removal *)

Lemma closest_take (n : nat) (chain : list (path * element)) (sel : selector) :
  closest (take n chain) sel = closest chain sel ∨ closest (take n chain) sel = None.
Proof.
  unfold closest. revert n. induction chain as [|a chain IH]; intros n.
  - left. by rewrite take_nil.
  - destruct n as [|n]; [by right|]. simpl. rewrite !filter_cons.
    destruct (decide (matches sel a.2 = true)); [by left | apply IH].
Qed.

(** X14.  When the component has been removed from the document together
    with the subtree rooted at some depth of its chain of ancestors,
    [disconnectedCallback] looks for its scope among the ancestors that are
    left: it finds the scope of attachment again or, failing that, the
    document, never another section.  Each of the two subscriptions made at
    attachment is still registered afterwards exactly when the scope found
    is not the scope of attachment. *)
Theorem unsubscribe_after_removal
    (ev : theme_events) (chain : list (path * element)) (depth : nat)
    (this this' : component) (r r' : registry) (type : string) :
  connectedCallback ev chain this r = (this', r') →
  type = variantUpdate ev ∨ type = variantSelected ev →
  let gone := detach depth chain in
  (scope gone = scope chain ∨ scope gone = Document) ∧
  (Listener (scope chain) type (next_function (setupNotifyButton this r)) ∈
     listeners (disconnectedCallback ev gone this' r') ↔
   scope gone ≠ scope chain).
Proof.
  intros Hconn Htype gone. split.
  - unfold scope, gone, detach.
    destruct (closest_take (length chain - depth) chain sel_section) as [-> | ->];
      [by left | by right].
  - split.
    + intros Hin Hsame.
      by apply (disconnected_same_scope ev chain gone this this' r r' Hconn type Hsame Htype).
    + intros Hne.
      by apply (disconnected_other_scope ev chain gone this this' r r' Hconn type).
Qed.

(** On the product page, with the component removed from its parent: both
    subscriptions stay on the section. *)
Lemma unsubscribe_after_removal_product_page :
  let chain := Samples.product_chain in
  (scope (detach 4 chain) = scope chain ∨ scope (detach 4 chain) = Document) ∧
  (Listener (scope chain) "variant:update" 1 ∈
     listeners (disconnectedCallback Samples.events (detach 4 chain)
                  (connectedCallback Samples.events chain Samples.fresh_component
                     Samples.empty_registry).1
                  (connectedCallback Samples.events chain Samples.fresh_component
                     Samples.empty_registry).2) ↔
   scope (detach 4 chain) ≠ scope chain).
Proof.
  apply (unsubscribe_after_removal Samples.events Samples.product_chain 4
           Samples.fresh_component _ Samples.empty_registry _ "variant:update").
  - reflexivity.
  - left. reflexivity.
Defined.

(** *** Attaching, then detaching *)

Lemma removeEventListener_absent (l : listener) (ls : list listener) :
  l ∉ ls → removeEventListener l ls = ls.
Proof.
  intros Hl. unfold removeEventListener. induction ls as [|x ls IH]; [done|].
  apply not_elem_of_cons in Hl as [Hne Hl].
  rewrite filter_cons, decide_True by done. by rewrite IH.
Qed.

Lemma addEventListener_shape (l : listener) (ls : list listener) :
  ∃ extra, addEventListener l ls = ls ++ extra ∧ Forall (λ x, x = l) extra.
Proof.
  unfold addEventListener. case_decide.
  - exists []. by rewrite app_nil_r.
  - exists [l]. split; [done|]. by apply Forall_singleton.
Qed.

Lemma removeEventListener_app (l : listener) (ls extra : list listener) :
  removeEventListener l (ls ++ extra) =
  removeEventListener l ls ++ removeEventListener l extra.
Proof. apply filter_app. Qed.

Lemma removeEventListener_all (l1 l2 : listener) (extra : list listener) :
  Forall (λ x, x = l1 ∨ x = l2) extra →
  removeEventListener l2 (removeEventListener l1 extra) = [].
Proof.
  unfold removeEventListener. induction 1 as [|x extra Hx _ IH]; [done|].
  rewrite filter_cons. case_decide as H1; [|done].
  rewrite filter_cons. case_decide as H2; [|done].
  destruct Hx; done.
Qed.

Lemma fresh_setupNotifyButton (this : component) (r : registry) :
  fresh r → fresh (setupNotifyButton this r).
Proof.
  intros Hf. unfold setupNotifyButton. destruct (notify_button this); [|done].
  unfold fresh, addEventListener. simpl. case_decide.
  - eapply Forall_impl; [exact Hf|]. simpl. intros. lia.
  - apply Forall_app. split.
    + eapply Forall_impl; [exact Hf|]. simpl. intros. lia.
    + apply Forall_singleton. simpl. lia.
Qed.

Lemma fresh_absent (r : registry) (target : event_target) (type : string) :
  fresh r → Listener target type (next_function r) ∉ listeners r.
Proof.
  intros Hf Hin. unfold fresh in Hf. rewrite Forall_forall in Hf.
  apply Hf in Hin. simpl in Hin. lia.
Qed.

(** X15.  When the ancestors of the component are the same at detachment as
    at attachment, [disconnectedCallback] undoes the subscriptions of
    [connectedCallback] and nothing else: the listeners registered afterwards
    are those registered before attachment together with the click listener
    of the notify button, in the same order. *)
Theorem connect_then_disconnect
    (ev : theme_events) (chain : list (path * element))
    (this this' : component) (r r' : registry) :
  fresh r →
  connectedCallback ev chain this r = (this', r') →
  listeners (disconnectedCallback ev chain this' r') =
    listeners (setupNotifyButton this r) ∧
  (notify_button this = None →
   listeners (disconnectedCallback ev chain this' r') = listeners r).
Proof.
  intros Hf Hconn.
  assert (H : listeners (disconnectedCallback ev chain this' r') =
              listeners (setupNotifyButton this r)).
  { unfold connectedCallback, setupVariantUpdateListener in Hconn.
    injection Hconn as <- <-. unfold disconnectedCallback. simpl.
    set (r1 := setupNotifyButton this r).
    set (l1 := Listener (scope chain) (variantUpdate ev) (next_function r1)).
    set (l2 := Listener (scope chain) (variantSelected ev) (next_function r1)).
    pose proof (fresh_setupNotifyButton this r Hf) as Hf1. fold r1 in Hf1.
    pose proof (fresh_absent r1 (scope chain) (variantUpdate ev) Hf1) as Ha1.
    pose proof (fresh_absent r1 (scope chain) (variantSelected ev) Hf1) as Ha2.
    fold l1 in Ha1. fold l2 in Ha2.
    destruct (addEventListener_shape l1 (listeners r1)) as (e1 & -> & He1).
    destruct (addEventListener_shape l2 (listeners r1 ++ e1)) as (e2 & -> & He2).
    rewrite <- app_assoc, !removeEventListener_app.
    rewrite (removeEventListener_absent l1) by done.
    rewrite (removeEventListener_absent l2) by done.
    rewrite !removeEventListener_all; [by rewrite !app_nil_r | |].
    - eapply Forall_impl; [exact He2|]. simpl. auto.
    - eapply Forall_impl; [exact He1|]. simpl. auto. }
  split; [done|]. intros Hnone. rewrite H. unfold setupNotifyButton.
  by rewrite Hnone.
Qed.

(** The product page: attached, then detached with the ancestors in place. *)
Lemma connect_then_disconnect_product_page :
  let attached := connectedCallback Samples.events Samples.product_chain
                    Samples.fresh_component Samples.empty_registry in
  listeners (disconnectedCallback Samples.events Samples.product_chain
               attached.1 attached.2) =
    [Listener NotifyButton "click" 0].
Proof.
  apply (proj1 (connect_then_disconnect Samples.events Samples.product_chain
                  Samples.fresh_component _ Samples.empty_registry _
                  (Forall_nil_2 _) eq_refl)).
Defined.

(** *** The click listener of the notify button *)

Lemma click_listeners_add (l : listener) (ls : list listener) :
  l_target l ≠ NotifyButton →
  filter (λ x, l_target x = NotifyButton ∧ l_type x = "click") (addEventListener l ls) =
  filter (λ x, l_target x = NotifyButton ∧ l_type x = "click") ls.
Proof.
  intros Hl. unfold addEventListener. case_decide; [done|].
  rewrite filter_app, filter_cons, decide_False by tauto.
  by rewrite filter_nil, app_nil_r.
Qed.

Lemma click_listeners_remove (l : listener) (ls : list listener) :
  l_target l ≠ NotifyButton →
  filter (λ x, l_target x = NotifyButton ∧ l_type x = "click") (removeEventListener l ls) =
  filter (λ x, l_target x = NotifyButton ∧ l_type x = "click") ls.
Proof.
  intros Hl. unfold removeEventListener. apply list_filter_filter_l.
  intros x [Hx _] ->. done.
Qed.

Lemma scope_not_button (chain : list (path * element)) : scope chain ≠ NotifyButton.
Proof. unfold scope. by destruct (closest chain sel_section) as [[p e]|]. Qed.

Lemma fresh_add (l : listener) (r : registry) (next : nat) :
  fresh r → next_function r ≤ next → l_callback l < next →
  fresh {| listeners := addEventListener l (listeners r); next_function := next |}.
Proof.
  intros Hf Hn Hl. unfold fresh, addEventListener. simpl. case_decide.
  - eapply Forall_impl; [exact Hf|]. simpl. intros. lia.
  - apply Forall_app. split.
    + eapply Forall_impl; [exact Hf|]. simpl. intros. lia.
    + by apply Forall_singleton.
Qed.

(** X16.  Every attachment of the component gives its notify button one more
    click listener, a function object of its own, and no detachment takes one
    away, whatever the ancestors of the component are by then: the click
    listeners only accumulate. *)
Theorem click_listeners_accumulate
    (ev : theme_events) (chain : list (path * element))
    (this : component) (d : string) (r : registry) :
  fresh r →
  notify_button this = Some d →
  let attached := connectedCallback ev chain this r in
  click_listeners attached.2 =
    click_listeners r ++ [Listener NotifyButton "click" (next_function r)] ∧
  fresh attached.2 ∧
  notify_button attached.1 = Some d ∧
  ∀ chain',
    click_listeners (disconnectedCallback ev chain' attached.1 attached.2) =
      click_listeners attached.2 ∧
    fresh (disconnectedCallback ev chain' attached.1 attached.2).
Proof.
  intros Hf Hd attached.
  assert (Hclick : click_listeners (setupNotifyButton this r) =
                   click_listeners r ++ [Listener NotifyButton "click" (next_function r)]).
  { unfold setupNotifyButton, click_listeners. rewrite Hd. simpl.
    unfold addEventListener.
    rewrite decide_False by (by apply fresh_absent).
    rewrite filter_app, filter_cons, decide_True by done. done. }
  assert (Hfresh : fresh attached.2).
  { unfold attached, connectedCallback, setupVariantUpdateListener. simpl.
    set (r1 := setupNotifyButton this r).
    set (l1 := Listener (scope chain) (variantUpdate ev) (next_function r1)).
    set (l2 := Listener (scope chain) (variantSelected ev) (next_function r1)).
    apply (fresh_add l2
             {| listeners := addEventListener l1 (listeners r1);
                next_function := S (next_function r1) |}
             (S (next_function r1))); simpl; [|lia|lia].
    apply (fresh_add l1 r1 (S (next_function r1))); simpl; [|lia|lia].
    by apply fresh_setupNotifyButton. }
  split; [|split; [done|]; split; [done|]].
  - unfold attached, connectedCallback, setupVariantUpdateListener, click_listeners.
    simpl. rewrite !click_listeners_add by apply scope_not_button. apply Hclick.
  - intros chain'. unfold disconnectedCallback.
    destruct (boundVariantUpdateHandler attached.1) as [h|]; [|done]. split.
    + unfold click_listeners. simpl.
      by rewrite !click_listeners_remove by apply scope_not_button.
    + unfold fresh, removeEventListener. simpl.
      rewrite !Forall_forall. intros x Hx.
      apply list_elem_of_filter in Hx as [_ Hx].
      apply list_elem_of_filter in Hx as [_ Hx].
      unfold fresh in Hfresh. rewrite Forall_forall in Hfresh. by apply Hfresh.
Qed.

(** On the product page: attached, detached and attached again, the button
    has two click listeners, and one click then opens two modals. *)
Lemma click_listeners_accumulate_reattached :
  let first := connectedCallback Samples.events Samples.product_chain
                 Samples.fresh_component Samples.empty_registry in
  let detached := disconnectedCallback Samples.events (detach 4 Samples.product_chain)
                    first.1 first.2 in
  let second := connectedCallback Samples.events Samples.product_chain first.1 detached in
  click_listeners second.2 =
    click_listeners detached ++ [Listener NotifyButton "click" (next_function detached)] ∧
  click_listeners second.2 =
    [Listener NotifyButton "click" 0; Listener NotifyButton "click" 2] ∧
  body (click_notify_button second.2 initial) = [0; 1].
Proof.
  intros first detached second. split; [|split; reflexivity].
  refine (proj1 (click_listeners_accumulate Samples.events Samples.product_chain
                   first.1 "" detached _ eq_refl)).
  vm_compute. repeat constructor.
Defined.

End AttachFacts.

(** ** Handlers that overlap *)

Module OverlapFacts.
Import Js Dom Watcher Modal Submission Page SubmissionFacts ModalFacts.

(** A handler that reaches its [await], step by step. *)
Lemma submit_awaiting
    (doc : document) (chain : list (path * element))
    (k m : nat) (n : modal_node) (v : string) (w : world) :
  envs w !! k = Some m →
  nodes w !! m = Some n →
  trim (email_value n) ≠ "" →
  contains (trim (email_value n)) "@" →
  Variant.getVariantId doc chain = Some v →
  v ≠ "" →
  submit doc chain k w =
  Awaiting
    (with_requests (λ rs, rs ++ [notification_request v (trim (email_value n))])
       (update_node m (set_submit true "Submitting...") w))
    {| c_closure := k; c_modal := m; c_originalText := submit_text n |}.
Proof.
  intros Hk Hn Hne Hat Hv Hv'. unfold submit. rewrite Hk, Hn.
  rewrite (proj2 (validation_test _)) by done.
  rewrite Hv. simpl. by rewrite (proj2 (JsFacts.eqb_empty_false v)).
Qed.

Lemma submit_fold
    (doc : document) (chain : list (path * element))
    (m : nat) (v : string) (ks : list nat) (w : world) (n : modal_node)
    (pending : list continuation) :
  (∀ k, k ∈ ks → envs w !! k = Some m) →
  nodes w !! m = Some n →
  trim (email_value n) ≠ "" →
  contains (trim (email_value n)) "@" →
  Variant.getVariantId doc chain = Some v →
  v ≠ "" →
  let s' := foldl (λ s k,
                     match submit doc chain k s.1 with
                     | Returned w' => (w', s.2)
                     | Awaiting w' c => (w', s.2 ++ [c])
                     end) (w, pending) ks in
  requests s'.1 =
    requests w ++ replicate (length ks) (notification_request v (trim (email_value n))) ∧
  length s'.2 = length pending + length ks.
Proof.
  revert w n pending. induction ks as [|k ks IH]; intros w n pending Hks Hn Hne Hat Hv Hv'.
  - simpl. by rewrite app_nil_r, Nat.add_0_r.
  - simpl.
    rewrite (submit_awaiting doc chain k m n v w) by (try done; apply Hks, list_elem_of_here).
    set (w1 := with_requests _ _).
    destruct (IH w1 (set_submit true "Submitting..." n)
                (pending ++ [{| c_closure := k; c_modal := m;
                                c_originalText := submit_text n |}]))
      as [I1 I2]; try done.
    { intros k' Hk'. apply (Hks k'). by apply list_elem_of_further. }
    { unfold w1. simpl. by rewrite list_lookup_alter_eq, Hn. }
    simpl in I1, I2. rewrite I1, I2. unfold w1. simpl.
    rewrite length_app, <- app_assoc. simpl. split; [done | lia].
Qed.

(** X17.  One submit event makes one call of [fetch] per submit listener of
    the form: when the address is valid and the variant is resolved, every
    listener sends the same request and is suspended at its [await]. *)
Theorem submit_event_calls_per_listener
    (doc : document) (chain : list (path * element))
    (m : nat) (n : modal_node) (v : string) (w : world)
    (pending : list continuation) :
  nodes w !! m = Some n →
  (∀ k, k ∈ form_submit n → envs w !! k = Some m) →
  trim (email_value n) ≠ "" →
  contains (trim (email_value n)) "@" →
  Variant.getVariantId doc chain = Some v →
  v ≠ "" →
  let s' := dispatch_submit doc chain m (w, pending) in
  requests s'.1 =
    requests w ++
    replicate (length (form_submit n)) (notification_request v (trim (email_value n))) ∧
  length s'.2 = length pending + length (form_submit n).
Proof.
  intros Hn Hks Hne Hat Hv Hv'. unfold dispatch_submit. simpl. rewrite Hn.
  by apply (submit_fold doc chain m v (form_submit n) w n pending).
Qed.

(** The notify button clicked twice on the product page, then one submit:
    the one form has two submit listeners and two identical calls are
    made. *)
Lemma submit_event_calls_per_listener_twice :
  let w := type_email 0 "shopper@example.com"
             (handleNotifyMeClick (handleNotifyMeClick initial)) in
  let s' := dispatch_submit Samples.product_document Samples.product_chain 0 (w, []) in
  requests s'.1 =
    [notification_request "4001" "shopper@example.com";
     notification_request "4001" "shopper@example.com"] ∧
  length s'.2 = 2.
Proof.
  intros w.
  refine (submit_event_calls_per_listener Samples.product_document Samples.product_chain
            0 (set_email "shopper@example.com" (add_listeners 1 (add_listeners 0 template)))
            "4001" w [] eq_refl _ _ _ eq_refl _).
  - intros k Hk. apply elem_of_cons in Hk as [->|Hk]; [reflexivity|].
    apply list_elem_of_singleton in Hk as ->. reflexivity.
  - vm_compute. discriminate.
  - exists "shopper", "example.com". reflexivity.
  - discriminate.
Defined.

Lemma length_nodes_resume (c : continuation) (o : fetch_outcome) (w : world) :
  length (nodes (resume c o w)) = length (nodes w).
Proof.
  unfold resume. rewrite length_update_node.
  destruct (submitNotification o); unfold showMessage;
    by rewrite ?nodes_setTimeout, ?length_update_node.
Qed.

(** X18.  When a second handler starts on a form whose first handler is
    still waiting for its call, the second saves the busy label as the
    original one: once both have resumed, first then second, the submit
    button is enabled but still reads [Submitting...]; resumed in the other
    order it reads what it read before the first submission. *)
Theorem overlapping_submissions_label
    (doc : document) (chain : list (path * element))
    (k1 k2 : nat) (w w1 w2 : world) (c1 c2 : continuation)
    (o1 o2 : fetch_outcome) (n : modal_node) :
  nodes w !! c_modal c1 = Some n →
  submit doc chain k1 w = Awaiting w1 c1 →
  submit doc chain k2 w1 = Awaiting w2 c2 →
  c_modal c2 = c_modal c1 →
  ∃ n12 n21,
    nodes (resume c2 o2 (resume c1 o1 w2)) !! c_modal c1 = Some n12 ∧
    submit_text n12 = "Submitting..." ∧ submit_disabled n12 = false ∧
    nodes (resume c1 o1 (resume c2 o2 w2)) !! c_modal c1 = Some n21 ∧
    submit_text n21 = submit_text n ∧ submit_disabled n21 = false.
Proof.
  intros Hn H1 H2 Hsame.
  unfold submit in H1.
  destruct (envs w !! k1) as [m1|] eqn:Hk1; [|discriminate].
  destruct (nodes w !! m1) as [n1|] eqn:Hn1; [|discriminate].
  destruct (String.eqb _ "" || _); [discriminate|].
  destruct (no_variant _); [discriminate|].
  injection H1 as <- <-. simpl in *. rewrite Hn in Hn1. injection Hn1 as <-.
  unfold submit in H2. simpl in H2.
  destruct (envs w !! k2) as [m2|] eqn:Hk2; [|discriminate].
  rewrite (list_lookup_alter (set_submit true "Submitting...") (nodes w) m1 m2) in H2.
  destruct (decide (m1 = m2)) as [<-|Hne].
  - rewrite Hn in H2. simpl in H2.
    destruct (String.eqb _ "" || _); [discriminate|].
    destruct (no_variant _); [discriminate|].
    injection H2 as <- <-. simpl in *.
    assert (Hm : m1 < length (nodes w)) by (by eapply lookup_lt_Some).
    set (c1 := {| c_closure := k1; c_modal := m1; c_originalText := submit_text n |}).
    set (c2 := {| c_closure := k2; c_modal := m1; c_originalText := "Submitting..." |}).
    set (w2 := with_requests _ (update_node m1 _ (with_requests _ (update_node m1 _ w)))).
    assert (Hm2 : m1 < length (nodes w2)).
    { unfold w2. simpl. by rewrite !length_alter. }
    destruct (resume_restores c2 o2 (resume c1 o1 w2)) as (n12 & A1 & A2 & A3).
    { change (m1 < length (nodes (resume c1 o1 w2))). by rewrite length_nodes_resume. }
    destruct (resume_restores c1 o1 (resume c2 o2 w2)) as (n21 & B1 & B2 & B3).
    { change (m1 < length (nodes (resume c2 o2 w2))). by rewrite length_nodes_resume. }
    exists n12, n21. done.
  - destruct (nodes w !! m2) as [n2|]; [|discriminate].
    destruct (String.eqb _ "" || _); [discriminate|].
    destruct (no_variant _); [discriminate|].
    injection H2 as <- <-. simpl in Hsame. congruence.
Qed.

(** The two handlers of the form above, answered one after the other. *)
Lemma overlapping_submissions_label_twice :
  let w := type_email 0 "shopper@example.com"
             (handleNotifyMeClick (handleNotifyMeClick initial)) in
  let c1 := {| c_closure := 0; c_modal := 0; c_originalText := "Notify Me" |} in
  let c2 := {| c_closure := 1; c_modal := 0; c_originalText := "Submitting..." |} in
  let w2 := (dispatch_submit Samples.product_document Samples.product_chain 0 (w, [])).1 in
  ∃ n12 n21,
    nodes (resume c2 (Response 200 (JsonValue JNull))
             (resume c1 (Response 200 (JsonValue JNull)) w2)) !! 0 = Some n12 ∧
    submit_text n12 = "Submitting..." ∧ submit_disabled n12 = false ∧
    nodes (resume c1 (Response 200 (JsonValue JNull))
             (resume c2 (Response 200 (JsonValue JNull)) w2)) !! 0 = Some n21 ∧
    submit_text n21 = "Notify Me" ∧ submit_disabled n21 = false.
Proof.
  intros w c1 c2 w2.
  apply (overlapping_submissions_label Samples.product_document Samples.product_chain
           0 1 w
           (match submit Samples.product_document Samples.product_chain 0 w with
            | Awaiting w1 _ => w1
            | Returned w1 => w1
            end)
           w2 c1 c2 (Response 200 (JsonValue JNull)) (Response 200 (JsonValue JNull))
           (set_email "shopper@example.com" (add_listeners 1 (add_listeners 0 template)))).
  - vm_compute. reflexivity.
  - vm_compute. reflexivity.
  - vm_compute. reflexivity.
  - reflexivity.
Defined.

End OverlapFacts.

(** ** The product form inside its section *)

Module TreeFacts.
Import Js Dom Variant VariantFacts.

(** Induction on an element, with the property known of its children. *)
Lemma element_children_ind (P : element → Prop) :
  (∀ t a c v ch cs, Forall P cs → P (Element t a c v ch cs)) →
  ∀ e, P e.
Proof.
  intros H. fix IH 1. intros [t a c v ch cs]. apply H.
  induction cs as [|x cs IHcs]; constructor; [apply IH | apply IHcs].
Qed.

Lemma elem_of_descendants (e x : element) :
  x ∈ descendants e ↔ ∃ c, c ∈ children e ∧ (x = c ∨ x ∈ descendants c).
Proof.
  destruct e as [t a c v ch cs]. simpl.
  rewrite list_elem_of_In, in_flat_map. split.
  - intros (c0 & Hc & Hx). exists c0. rewrite list_elem_of_In. split; [done|].
    destruct Hx as [->|Hx]; [by left | right; by apply list_elem_of_In].
  - intros (c0 & Hc & Hx). exists c0. rewrite <- list_elem_of_In. split; [done|].
    destruct Hx as [->|Hx]; [by left | right; by apply list_elem_of_In].
Qed.

(** The descendants of a descendant are descendants. *)
Lemma descendants_trans (e c x : element) :
  c ∈ descendants e → x ∈ descendants c → x ∈ descendants e.
Proof.
  revert c x. induction e as [t a cl v ch cs IH] using element_children_ind.
  intros c x Hc Hx. apply elem_of_descendants in Hc as (c0 & Hc0 & Hc).
  apply elem_of_descendants. exists c0. split; [done|]. right.
  destruct Hc as [->|Hc]; [done|].
  rewrite Forall_forall in IH. by apply (IH c0 Hc0 c x).
Qed.

Lemma querySelectorAll_inside (outer inner x : element) (sel : selector) :
  inner ∈ descendants outer →
  x ∈ querySelectorAll inner sel → x ∈ querySelectorAll outer sel.
Proof.
  unfold querySelectorAll. rewrite !list_elem_of_filter.
  intros Hin [Hm Hx]. split; [done|]. by eapply descendants_trans.
Qed.

Lemma querySelector_in (e x : element) (sel : selector) :
  querySelector e sel = Some x → x ∈ querySelectorAll e sel.
Proof.
  unfold querySelector. destruct (querySelectorAll e sel); [done|].
  intros [= ->]. apply list_elem_of_here.
Qed.

(** X19.  When the nearest product form of the component lies inside its
    nearest section, a non-empty variant input anywhere in that form is
    enough for [getVariantId] to return a value, also when the first variant
    input of the form, the only one the first step reads, is empty: the
    second step reads every variant input of the section, those of the form
    included.  The value returned is that of a variant input of the
    section. *)
Theorem form_inside_section_resolves
    (doc : document) (chain : list (path * element))
    (pf ps : path) (form section input : element) :
  closest chain sel_product_form = Some (pf, form) →
  closest chain sel_section = Some (ps, section) →
  form ∈ descendants section →
  input ∈ querySelectorAll form sel_variant_input →
  value input ≠ "" →
  ∃ v found,
    getVariantId doc chain = Some v ∧
    v ≠ "" ∧
    found ∈ querySelectorAll section sel_variant_input ∧
    value found = v.
Proof.
  intros Hform Hsection Hinside Hinput Hvalue.
  rewrite getVariantId_spec, first_non_empty_app.
  destruct (first_non_empty (source_product_form chain)) as [v|] eqn:H1.
  - apply first_non_empty_is_non_empty in H1 as [Hv Hin].
    unfold source_product_form in Hin. rewrite Hform in Hin.
    destruct (querySelector form sel_variant_input) as [first|] eqn:Hq;
      [|by apply elem_of_nil in Hin].
    simpl in Hin. apply list_elem_of_singleton in Hin as ->.
    exists (value first), first. split; [done|]. split; [done|]. split; [|done].
    eapply querySelectorAll_inside; [done|]. by apply querySelector_in.
  - rewrite first_non_empty_app.
    destruct (first_non_empty (source_section chain)) as [v|] eqn:H2.
    + apply first_non_empty_is_non_empty in H2 as [Hv Hin].
      unfold source_section in Hin. rewrite Hsection in Hin.
      apply list_elem_of_fmap in Hin as (found & -> & Hfound).
      by exists (value found), found.
    + exfalso. apply Hvalue. apply (proj1 (first_non_empty_None _) H2).
      unfold source_section. rewrite Hsection.
      apply list_elem_of_fmap. exists input. split; [done|].
      by eapply querySelectorAll_inside.
Qed.

(** The page whose first variant input is empty: the second one is found. *)
Lemma form_inside_section_resolves_two_inputs :
  ∃ v found,
    getVariantId Pages.two_inputs_document Pages.two_inputs_chain = Some v ∧
    v ≠ "" ∧
    found ∈ querySelectorAll Pages.two_inputs_section sel_variant_input ∧
    value found = v.
Proof.
  apply (form_inside_section_resolves Pages.two_inputs_document Pages.two_inputs_chain
           [0; 0; 0] [0; 0] Pages.two_inputs_form Pages.two_inputs_section
           (Element "input" [("ref", "variantId")] [] "5002" false [])).
  - reflexivity.
  - reflexivity.
  - vm_compute. apply list_elem_of_here.
  - vm_compute. apply list_elem_of_further, list_elem_of_here.
  - discriminate.
Defined.

End TreeFacts.
